(** * hearkit.baseline: framing, the mel/random-projection embedding and the
      batched embedding driver

    A shallow embedding of [src/hearkit/baseline.py].

    Modelling conventions.
    - A torch tensor is a shape together with its row-major storage
      ([tensor]); [ndim] is the length of the shape.
    - Sample values are kept abstract ([Scalar]): the theorems on framing and
      batching use no law of the arithmetic, so they hold for any arithmetic
      in which the library operations act row by row in a fixed order.
    - Python numbers that drive control flow are exact: [int] is [Z], and the
      [float] [hop_size] is read as the rational it denotes ([Q]), products
      are exact, and [round] is Python's round-half-to-even.  Overflow, NaN
      and infinities of IEEE arithmetic are outside the model.
    - Exceptions are values of [exn]; a computation yields an [outcome].
      The [while True] loop of [frame_audio] is run with fuel, and
      [OutOfFuel] stands for "has not returned yet".
    - [get_audio_embedding] threads the model object through the call, since
      [model.eval()] writes to it. *)

From Stdlib Require Import String.
From Stdlib Require Import Reals Qreals Lra.
From Stdlib Require Import List ZArith QArith Qround Lia Bool Arith PeanoNat.
Import ListNotations.
Local Open Scope string_scope.
Local Open Scope list_scope.

Set Implicit Arguments.

Local Open Scope nat_scope.

(* ------------------------------------------------------------------ *)
(** ** Exceptions and outcomes *)

Inductive exn : Type :=
| ValueError (msg : string)
| IndexError (msg : string)
| RuntimeError (msg : string)
| NotImplementedError (msg : string).

Inductive outcome (A : Type) : Type :=
| Ret (a : A)
| Raise (e : exn)
| OutOfFuel.

Arguments Ret {A} a.
Arguments Raise {A} e.
Arguments OutOfFuel {A}.

Definition bind {A B} (c : outcome A) (k : A -> outcome B) : outcome B :=
  match c with
  | Ret a => k a
  | Raise e => Raise e
  | OutOfFuel => OutOfFuel
  end.

Notation "x <- c ;; k" := (bind c (fun x => k))
  (at level 61, c at next level, right associativity).

(** Evaluate a list of computations left to right, stopping at the first one
    that does not return (a Python list comprehension). *)
Fixpoint sequence {A} (cs : list (outcome A)) : outcome (list A) :=
  match cs with
  | [] => Ret []
  | c :: cs' => x <- c ;; xs <- sequence cs' ;; Ret (x :: xs)
  end.

(** The two messages raised by the driver; the specification calls the
    first condition InvalidInput and the second TypeMismatch. *)
Definition InvalidInput : exn :=
  ValueError "audio input tensor must be 2D with shape (batch_size, num_samples)".

Definition TypeMismatch : exn :=
  ValueError "Model must be an instance of RandomProjectionMelEmbedding".

(* ------------------------------------------------------------------ *)
(** ** Tensors *)

Record tensor (A : Type) : Type := mkTensor {
  shape : list nat;
  data : list A
}.

Arguments mkTensor {A} shape data.

Definition numel (sh : list nat) : nat := fold_right Nat.mul 1 sh.

Definition ndim {A} (t : tensor A) : nat := length (shape t).

(** A tensor is well formed when its storage has as many elements as its
    shape says. *)
Definition wf {A} (t : tensor A) : Prop := length (data t) = numel (shape t).

(** [chunks cnt size l]: the first [cnt] consecutive blocks of [size]
    elements of [l]. *)
Fixpoint chunks {A} (cnt size : nat) (l : list A) : list (list A) :=
  match cnt with
  | O => []
  | S c => firstn size l :: chunks c size (skipn size l)
  end.

(** Split a shape into its leading dimensions and its last one. *)
Definition split_last (sh : list nat) : option (list nat * nat) :=
  match rev sh with
  | [] => None
  | d :: r => Some (rev r, d)
  end.

(** [F.pad(t, (l, r))]: constant (zero) padding of the last dimension. *)
Definition pad_last {A} (z : A) (l r : nat) (t : tensor A) : outcome (tensor A) :=
  match split_last (shape t) with
  | None => Raise (RuntimeError "Padding length too large")
  | Some (lead, d) =>
      Ret (mkTensor (lead ++ [l + d + r])
             (concat (map (fun row => repeat z l ++ row ++ repeat z r)
                          (chunks (numel lead) d (data t)))))
  end.

(** Python slice bounds [a:b] on a dimension of size [d]: negative indices
    count from the end, then both are clamped to [0, d].  The result is the
    first index and the number of elements. *)
Definition slice_index (d : nat) (i : Z) : Z :=
  if (i <? 0)%Z then Z.max 0 (i + Z.of_nat d) else Z.min i (Z.of_nat d).

Definition slice_bounds (d : nat) (a b : Z) : nat * nat :=
  let lo := slice_index d a in
  let hi := slice_index d b in
  (Z.to_nat lo, Z.to_nat (Z.max 0 (hi - lo))).

(** [t[:, a:b]]: a slice along dimension 1. *)
Definition slice_dim1 {A} (a b : Z) (t : tensor A) : outcome (tensor A) :=
  match shape t with
  | d0 :: d1 :: rest =>
      let inner := numel rest in
      let '(lo, len) := slice_bounds d1 a b in
      Ret (mkTensor (d0 :: len :: rest)
             (concat (map (fun blk => firstn (len * inner) (skipn (lo * inner) blk))
                          (chunks d0 (d1 * inner) (data t)))))
  | _ => Raise (IndexError "too many indices for tensor")
  end.

Definition shape_eqb (s1 s2 : list nat) : bool :=
  if list_eq_dec Nat.eq_dec s1 s2 then true else false.

(** [torch.stack(ts, dim=1)]. *)
Definition stack_dim1 {A} (ts : list (tensor A)) : outcome (tensor A) :=
  match ts with
  | [] => Raise (RuntimeError "stack expects a non-empty TensorList")
  | t0 :: _ =>
      if forallb (fun t => shape_eqb (shape t) (shape t0)) ts then
        match shape t0 with
        | [] => Raise (IndexError "Dimension out of range")
        | d0 :: rest =>
            let blk := numel rest in
            Ret (mkTensor (d0 :: length ts :: rest)
                   (concat (map (fun i =>
                              concat (map (fun t => firstn blk (skipn (i * blk) (data t))) ts))
                            (seq 0 d0))))
        end
      else Raise (RuntimeError "stack expects each tensor to be equal size")
  end.

(** [torch.tensor(xs)] for a Python list of numbers. *)
Definition tensor_of_list {A} (xs : list A) : tensor A :=
  mkTensor [length xs] xs.

(** [torch.cat(ts, dim=0)]. *)
Definition cat_dim0 {A} (ts : list (tensor A)) : outcome (tensor A) :=
  match ts with
  | [] => Raise (RuntimeError "torch.cat(): expected a non-empty list of Tensors")
  | t0 :: _ =>
      match shape t0 with
      | [] => Raise (RuntimeError "zero-dimensional tensor cannot be concatenated")
      | _ :: rest0 =>
          if forallb (fun t => match shape t with
                               | [] => false
                               | _ :: rest => shape_eqb rest rest0
                               end) ts
          then Ret (mkTensor (list_sum (map (fun t => hd 0 (shape t)) ts) :: rest0)
                      (concat (map (@data A) ts)))
          else Raise (RuntimeError "Sizes of tensors must match except in dimension 0")
      end
  end.

(** [t.unflatten(0, (a, b))]. *)
Definition unflatten0 {A} (a b : nat) (t : tensor A) : outcome (tensor A) :=
  match shape t with
  | [] => Raise (IndexError "Dimension out of range")
  | d0 :: rest =>
      if a * b =? d0 then Ret (mkTensor (a :: b :: rest) (data t))
      else Raise (RuntimeError "unflatten: Provided sizes don't multiply up to the size of dim 0")
  end.

(* ------------------------------------------------------------------ *)
(** ** Python's [round] on an exact number *)

(** Round half to even. *)
Definition py_round (x : Q) : Z :=
  let a := Qnum x in
  let b := Zpos (Qden x) in
  let f := (a / b)%Z in
  match (2 * (a mod b) ?= b)%Z with
  | Lt => f
  | Gt => (f + 1)%Z
  | Eq => if Z.even f then f else (f + 1)%Z
  end.

(* ------------------------------------------------------------------ *)
(** ** [frame_audio] *)

(** [int(round(sample_rate * frame_number * hop_size))] *)
Definition frame_start_of (sample_rate : Z) (hop_size : Q) (frame_number : Z) : Z :=
  py_round (inject_Z (sample_rate * frame_number) * hop_size)%Q.

Section Framing.
Context {A : Type}.

(** The body of the [while True] loop, started in the state
    [(frame_number, frames, timestamps, frame_start, frame_end)]. *)
Fixpoint frame_loop (fuel : nat) (audio : tensor A) (frame_size : nat)
    (hop_size : Q) (sample_rate : Z) (num_padded_samples : nat)
    (frame_number : Z) (frames : list (tensor A)) (timestamps : list Q)
    (frame_start frame_end : Z) : outcome (list (tensor A) * list Q) :=
  match fuel with
  | O => OutOfFuel
  | S fuel' =>
      fr <- slice_dim1 frame_start frame_end audio ;;
      let frames := frames ++ [fr] in
      let timestamps := timestamps ++ [(inject_Z frame_number * hop_size)%Q] in
      let frame_number := (frame_number + 1)%Z in
      let frame_start := frame_start_of sample_rate hop_size frame_number in
      let frame_end := (frame_start + Z.of_nat frame_size)%Z in
      if negb (frame_end <=? Z.of_nat num_padded_samples)%Z
      then Ret (frames, timestamps)
      else frame_loop fuel' audio frame_size hop_size sample_rate
             num_padded_samples frame_number frames timestamps
             frame_start frame_end
  end.

Definition frame_audio (zero : A) (fuel : nat) (audio : tensor A)
    (frame_size : nat) (hop_size : Q) (sample_rate : Z)
    : outcome (tensor A * tensor Q) :=
  audio <- pad_last zero (frame_size / 2) (frame_size - frame_size / 2) audio ;;
  match nth_error (shape audio) 1 with
  | None => Raise (IndexError "tuple index out of range")
  | Some num_padded_samples =>
      r <- frame_loop fuel audio frame_size hop_size sample_rate
             num_padded_samples 0%Z [] [] 0%Z (Z.of_nat frame_size) ;;
      let '(frames, timestamps) := r in
      fs <- stack_dim1 frames ;;
      Ret (fs, tensor_of_list timestamps)
  end.
End Framing.

(** *** Vocabulary for the framing properties *)

(** Start of frame [k]: [int(round(sample_rate * k * hop_size))]. *)
Definition frame_start (h : Q) (sr : Z) (k : nat) : Z :=
  frame_start_of sr h (Z.of_nat k).

(** Whether frame [k] ends inside a padded signal of [padded] samples: the
    negation of the loop's exit test. *)
Definition frame_fits (n : nat) (h : Q) (sr : Z) (padded : nat) (k : nat) : bool :=
  (frame_start h sr k + Z.of_nat n <=? Z.of_nat padded)%Z.

(** Timestamp of frame [k]: [frame_number * hop_size]. *)
Definition frame_stamp (h : Q) (k : nat) : Q := (inject_Z (Z.of_nat k) * h)%Q.

(** [F] is the number of frames the loop emits: the first [k >= 1] whose
    frame does not fit. *)
Definition frame_count (n : nat) (h : Q) (sr : Z) (padded : nat) (F : nat) : Prop :=
  1 <= F /\
  (forall i, 1 <= i < F -> frame_fits n h sr padded i = true) /\
  frame_fits n h sr padded F = false.

(** The sign of [sample_rate * hop_size]. *)
Definition rate_sign (sr : Z) (h : Q) : Z := (sr * Qnum h)%Z.

(** Row [i] of a storage made of rows of [len] elements. *)
Definition row_at {A} (len i : nat) (l : list A) : list A :=
  firstn len (skipn (i * len) l).

(** Entry [[r, f]] (a vector) of a 3-D tensor. *)
Definition at2 {A} (t : tensor A) (r f : nat) : list A :=
  match shape t with
  | [_; d1; d2] => row_at d2 (r * d1 + f) (data t)
  | _ => []
  end.

(** Recording [r] of a 2-D batch with [Ns] samples per recording, and the
    same recording between [n / 2] zeros on the left and [n - n / 2] zeros
    on the right. *)
Definition recording {A} (audio : tensor A) (Ns r : nat) : list A :=
  row_at Ns r (data audio).

Definition padded_recording {A} (zero : A) (audio : tensor A) (Ns n r : nat) : list A :=
  repeat zero (n / 2) ++ recording audio Ns r ++ repeat zero (n - n / 2).

(** Length of a padded recording. *)
Definition padded_length (Ns n : nat) : nat := n / 2 + Ns + (n - n / 2).

(** The [n] samples of [row] from sample [a] on. *)
Definition window_at {A} (n : nat) (a : Z) (row : list A) : list A :=
  firstn n (skipn (Z.to_nat a) row).

(** The frame tensor of a 2-D batch with [F] frames per recording: frame
    [k] of recording [r] is the window of the padded recording at
    [frame_start h sr k]; recordings come first, frames second. *)
Definition frames_tensor {A} (zero : A) (audio : tensor A) (R Ns n : nat)
    (h : Q) (sr : Z) (F : nat) : tensor A :=
  mkTensor [R; F; n]
    (concat (map (fun r =>
               concat (map (fun k => window_at n (frame_start h sr k)
                                       (padded_recording zero audio Ns n r))
                           (seq 0 F)))
             (seq 0 R))).

(** The padded recordings of a 2-D batch, the padded batch, and what the
    loop appends for frame [k]. *)
Definition padded_rows {A} (zero : A) (audio : tensor A) (R Ns n : nat)
    : list (list A) :=
  map (padded_recording zero audio Ns n) (seq 0 R).

Definition padded_audio {A} (zero : A) (audio : tensor A) (R Ns n : nat)
    : tensor A :=
  mkTensor [R; padded_length Ns n] (concat (padded_rows zero audio R Ns n)).

Definition slice_k {A} (zero : A) (audio : tensor A) (R Ns n : nat)
    (h : Q) (sr : Z) (k : nat) : tensor A :=
  match slice_dim1 (frame_start h sr k) (frame_start h sr k + Z.of_nat n)
                   (padded_audio zero audio R Ns n) with
  | Ret t => t
  | _ => padded_audio zero audio R Ns n
  end.

(* ------------------------------------------------------------------ *)
(** ** Sample arithmetic *)

(** The arithmetic of tensor elements, as the operations the code applies to
    them.  [twiddle n k j] is the complex number [exp(-2 pi i k j / n)] of
    the discrete Fourier transform, as a pair (real, imaginary); [tlit] reads
    a Python float literal. *)
Class Scalar (T : Type) : Type := {
  tzero : T;
  tadd : T -> T -> T;
  tmul : T -> T -> T;
  tsqrt : T -> T;
  tlog : T -> T;
  twiddle : nat -> nat -> nat -> T * T;
  tlit : Q -> T
}.

Section Embedding.
Context {T : Type} `{Scalar T}.

(** A 2-D buffer, row-major. *)
Record matrix : Type := mkMatrix {
  nrows : nat;
  ncols : nat;
  entries : list T
}.

Definition wf_matrix (w : matrix) : Prop :=
  length (entries w) = nrows w * ncols w.

(** The attributes of a [RandomProjectionMelEmbedding] object, as attribute
    lookup on the instance finds them (instance, subclass or class), with
    the [training] flag of [torch.nn.Module]. *)
Record Model : Type := mkModel {
  sample_rate : Z;
  embedding_size : nat;
  n_fft : nat;
  n_mels : nat;
  seed : Z;
  epsilon : T;
  window : list T;
  mel_scale : matrix;
  projection : matrix;
  training : bool
}.

(** Class attributes of [RandomProjectionMelEmbedding]. *)
Definition RandomProjectionMelEmbedding_sample_rate : Z := 44100.
Definition RandomProjectionMelEmbedding_embedding_size : nat := 4096.
Definition RandomProjectionMelEmbedding_n_fft : nat := 4096.
Definition RandomProjectionMelEmbedding_n_mels : nat := 256.
Definition RandomProjectionMelEmbedding_seed : Z := 0.
Definition RandomProjectionMelEmbedding_epsilon : T := tlit (1 # 10000).

(** [RandomProjectionMelEmbedding()].  The Hann window, the librosa mel
    filter bank and the scaled random projection come from outside the
    repository and are taken as given; a fresh [torch.nn.Module] is in
    training mode. *)
Definition RandomProjectionMelEmbedding_new
    (hann_window : list T) (mel : matrix) (proj : matrix) : Model :=
  mkModel RandomProjectionMelEmbedding_sample_rate
          RandomProjectionMelEmbedding_embedding_size
          RandomProjectionMelEmbedding_n_fft
          RandomProjectionMelEmbedding_n_mels
          RandomProjectionMelEmbedding_seed
          RandomProjectionMelEmbedding_epsilon
          hann_window mel proj true.

Definition load_model (model_file_path : string)
    (hann_window : list T) (mel : matrix) (proj : matrix) : outcome Model :=
  if String.eqb model_file_path ""
  then Ret (RandomProjectionMelEmbedding_new hann_window mel proj)
  else Raise (NotImplementedError "Loading model weights not implemented yet").

(** *** Tensor operations used by [forward] *)

Definition tensor_map {A B} (f : A -> B) (t : tensor A) : tensor B :=
  mkTensor (shape t) (map f (data t)).

Definition mul_rows (u v : list T) : list T :=
  map (fun p => tmul (fst p) (snd p)) (combine u v).

(** [x * w] for a 1-D [w], with broadcasting. *)
Definition mul_broadcast (x : tensor T) (w : list T) : outcome (tensor T) :=
  match split_last (shape x) with
  | None => Ret (mkTensor [length w] (flat_map (fun v => map (tmul v) w) (data x)))
  | Some (lead, d) =>
      if d =? length w then
        Ret (mkTensor (lead ++ [d])
               (concat (map (fun row => mul_rows row w) (chunks (numel lead) d (data x)))))
      else if d =? 1 then
        Ret (mkTensor (lead ++ [length w]) (flat_map (fun v => map (tmul v) w) (data x)))
      else if length w =? 1 then
        Ret (mkTensor (lead ++ [d]) (map (fun v => tmul v (hd tzero w)) (data x)))
      else Raise (RuntimeError "The size of tensor a must match the size of tensor b")
  end.

Definition cadd (a b : T * T) : T * T := (tadd (fst a) (fst b), tadd (snd a) (snd b)).
Definition cscale (x : T) (c : T * T) : T * T := (tmul x (fst c), tmul x (snd c)).

(** One-sided discrete Fourier transform of a real sequence: bins
    [0 .. n/2]. *)
Definition rfft_row (row : list T) : list (T * T) :=
  let n := length row in
  map (fun k =>
         fold_left (fun acc p => cadd acc (cscale (snd p) (twiddle n k (fst p))))
                   (combine (seq 0 n) row) (tzero, tzero))
      (seq 0 (n / 2 + 1)).

(** [torch.fft.rfft(x)]: along the last dimension. *)
Definition rfft (x : tensor T) : outcome (tensor (T * T)) :=
  match split_last (shape x) with
  | None => Raise (RuntimeError "Dimension specified as -1 but tensor has no dimensions")
  | Some (lead, d) =>
      if d =? 0 then Raise (RuntimeError "Invalid number of data points (0) specified")
      else Ret (mkTensor (lead ++ [d / 2 + 1])
                  (concat (map rfft_row (chunks (numel lead) d (data x)))))
  end.

(** [torch.abs] of a complex number, and [** 2.0]. *)
Definition cabs (c : T * T) : T := tsqrt (tadd (tmul (fst c) (fst c)) (tmul (snd c) (snd c))).
Definition pow2 (x : T) : T := tmul x x.

Definition dot (u v : list T) : T :=
  fold_left (fun acc p => tadd acc (tmul (fst p) (snd p))) (combine u v) tzero.

Definition column (w : matrix) (c : nat) : list T :=
  map (fun k => nth (k * ncols w + c) (entries w) tzero) (seq 0 (nrows w)).

(** [w.transpose(0, 1)] *)
Definition transpose (w : matrix) : matrix :=
  mkMatrix (ncols w) (nrows w) (concat (map (column w) (seq 0 (ncols w)))).

Definition matmul_row (w : matrix) (row : list T) : list T :=
  map (fun c => dot row (column w c)) (seq 0 (ncols w)).

(** [torch.matmul(x, w)] for a 2-D [w]: the last dimension of [x] is
    contracted with the rows of [w]. *)
Definition matmul (x : tensor T) (w : matrix) : outcome (tensor T) :=
  match split_last (shape x) with
  | None => Raise (RuntimeError "both arguments to matmul need to be at least 1D")
  | Some (lead, d) =>
      if d =? nrows w then
        Ret (mkTensor (lead ++ [ncols w])
               (concat (map (matmul_row w) (chunks (numel lead) d (data x)))))
      else Raise (RuntimeError "mat1 and mat2 shapes cannot be multiplied")
  end.

(** *** [RandomProjectionMelEmbedding.forward] *)

Definition forward (self : Model) (x : tensor T) : outcome (tensor T) :=
  (* Compute the real-valued Fourier transform on windowed input signal. *)
  x <- mul_broadcast x (window self) ;;
  x <- rfft x ;;
  (* Convert to a power spectrum. *)
  let x := tensor_map pow2 (tensor_map cabs x) in
  (* Apply the mel-scale filter to the power spectrum. *)
  x <- matmul x (transpose (mel_scale self)) ;;
  (* Convert to a log mel spectrum. *)
  let x := tensor_map (fun v => tlog (tadd v (epsilon self))) x in
  (* Apply projection to get the embedding. *)
  embedding <- matmul x (projection self) ;;
  Ret embedding.

(** What [forward] computes for one frame: the same operations on a single
    row. *)
Definition forward_row (self : Model) (row : list T) : list T :=
  matmul_row (projection self)
    (map (fun v => tlog (tadd v (epsilon self)))
       (matmul_row (transpose (mel_scale self))
          (map pow2 (map cabs (rfft_row (mul_rows row (window self))))))).

(** The first three statements of [forward]: the mel reduction. *)
Definition mel_reduction (self : Model) (x : tensor T) : outcome (tensor T) :=
  x <- mul_broadcast x (window self) ;;
  x <- rfft x ;;
  let x := tensor_map pow2 (tensor_map cabs x) in
  matmul x (transpose (mel_scale self)).

(** *** The embed contract in the words of the specification

    Section 4.2 of the specification, step by step, for one frame, with the
    sizes the specification names ([n_fft], [mel_bands], [embedding_size])
    and entries addressed by index. *)

(** 1. Multiply each frame element-wise by the window buffer. *)
Definition spec_windowed (self : Model) (frame : list T) : list T :=
  map (fun i => tmul (nth i frame tzero) (nth i (window self) tzero))
      (seq 0 (n_fft self)).

(** 2. One-sided real-input discrete Fourier transform: bins
    [0 .. n_fft/2]. *)
Definition spec_dft (self : Model) (x : list T) : list (T * T) :=
  map (fun k =>
         fold_left (fun acc j => cadd acc (cscale (nth j x tzero) (twiddle (n_fft self) k j)))
                   (seq 0 (n_fft self)) (tzero, tzero))
      (seq 0 (n_fft self / 2 + 1)).

(** 3. Power spectrum: squared magnitude of each complex value. *)
Definition spec_power (X : list (T * T)) : list T :=
  map (fun c => pow2 (cabs c)) X.

(** 4. Mel reduction: the power spectrum times the transposed mel filter
    matrix; entry [b] sums over the bins [k] the products with entry
    [(b, k)] of the (mel_bands x bins) filter matrix. *)
Definition spec_mel (self : Model) (P : list T) : list T :=
  let bins := n_fft self / 2 + 1 in
  map (fun b =>
         fold_left (fun acc k =>
                      tadd acc (tmul (nth k P tzero)
                                     (nth (b * bins + k) (entries (mel_scale self)) tzero)))
                   (seq 0 bins) tzero)
      (seq 0 (n_mels self)).

(** 5. Log compression: [log(mel + epsilon)] element-wise. *)
Definition spec_log (self : Model) (M : list T) : list T :=
  map (fun v => tlog (tadd v (epsilon self))) M.

(** 6. Projection by the (mel_bands x embedding_size) matrix. *)
Definition spec_project (self : Model) (L : list T) : list T :=
  map (fun e =>
         fold_left (fun acc b =>
                      tadd acc (tmul (nth b L tzero)
                                     (nth (b * embedding_size self + e)
                                          (entries (projection self)) tzero)))
                   (seq 0 (n_mels self)) tzero)
      (seq 0 (embedding_size self)).

Definition embed_spec_frame (self : Model) (frame : list T) : list T :=
  spec_project self
    (spec_log self
       (spec_mel self (spec_power (spec_dft self (spec_windowed self frame))))).

(** The embedding of a frame batch, frame by frame. *)
Definition embed_spec (self : Model) (frames : list (list T)) : list (list T) :=
  map (embed_spec_frame self) frames.

(** *** The driver *)

(** Any Python object may be passed as [model]; only whether it is an
    instance of [RandomProjectionMelEmbedding] (or of a subclass) matters. *)
Inductive pyobj : Type :=
| Instance (m : Model)
| Foreign (class_name : string).

(** State and exceptions: the state is the model object. *)
Definition comp (A : Type) : Type := Model -> outcome A * Model.

Definition cret {A} (a : A) : comp A := fun m => (Ret a, m).

Definition cbind {A B} (c : comp A) (k : A -> comp B) : comp B :=
  fun m =>
    match c m with
    | (Ret a, m') => k a m'
    | (Raise e, m') => (Raise e, m')
    | (OutOfFuel, m') => (OutOfFuel, m')
    end.

Definition lift {A} (o : outcome A) : comp A := fun m => (o, m).

Definition self_ : comp Model := fun m => (Ret m, m).

(** [model.eval()]: [torch.nn.Module.eval] sets [training] to [False]. *)
Definition set_eval (m : Model) : Model :=
  mkModel (sample_rate m) (embedding_size m) (n_fft m) (n_mels m)
          (seed m) (epsilon m) (window m) (mel_scale m)
          (projection m) false.

Definition eval_ : comp unit := fun m => (Ret tt, set_eval m).

Notation "x <~ c ;; k" := (cbind c (fun x => k))
  (at level 61, c at next level, right associativity).

(** [frames.flatten(end_dim=1)] *)
Definition flatten01 {A} (t : tensor A) : outcome (tensor A) :=
  match shape t with
  | d0 :: d1 :: rest => Ret (mkTensor (d0 * d1 :: rest) (data t))
  | _ => Raise (IndexError "Dimension out of range")
  end.

(** Consecutive groups of [b] elements, the last one possibly shorter (the
    batch sampler with [drop_last=False]).  For [b >= 1] every group takes
    at least one element, so [length l] rounds are enough. *)
Fixpoint groups_aux {A} (fuel b : nat) (l : list A) : list (list A) :=
  match fuel with
  | O => []
  | S fuel' =>
      match l with
      | [] => []
      | _ :: _ => firstn b l :: groups_aux fuel' b (skipn b l)
      end
  end.

Definition groups {A} (b : nat) (l : list A) : list (list A) :=
  groups_aux (length l) b l.

(** [DataLoader(TensorDataset(frames), batch_size, shuffle=False,
    drop_last=False)], as the list of the [batch[0]] it yields.  With
    [batch_size=None] the samples are yielded one by one, unbatched. *)
Definition data_loader {A} (frames : tensor A) (batch_size : option Z)
    : outcome (list (tensor A)) :=
  match shape frames with
  | [] => Raise (IndexError "len() of a 0-d tensor")
  | d0 :: rest =>
      let samples := chunks d0 (numel rest) (data frames) in
      match batch_size with
      | None => Ret (map (mkTensor rest) samples)
      | Some b =>
          if (b <=? 0)%Z
          then Raise (ValueError "batch_size should be a positive integer value")
          else Ret (map (fun g => mkTensor (length g :: rest) (concat g))
                        (groups (Z.to_nat b) samples))
      end
  end.

Definition get_audio_embedding_body (fuel : nat) (audio : tensor T)
    (hop_size : Q) (batch_size : option Z) : comp (tensor T * tensor Q) :=
  (* model.to(audio.device): device placement is not modelled. *)
  model <~ self_ ;;
  ft <~ lift (frame_audio tzero fuel audio (n_fft model) hop_size
                RandomProjectionMelEmbedding_sample_rate) ;;
  let '(frames, timestamps) := ft in
  match shape frames with
  | [audio_batches; num_frames; frame_size] =>
      frames <~ lift (flatten01 frames) ;;
      loader <~ lift (data_loader frames batch_size) ;;
      _ <~ eval_ ;;
      model <~ self_ ;;
      embeddings_list <~ lift (sequence (map (forward model) loader)) ;;
      embeddings <~ lift (cat_dim0 embeddings_list) ;;
      embeddings <~ lift (unflatten0 audio_batches num_frames embeddings) ;;
      cret (embeddings, timestamps)
  | _ => lift (Raise (ValueError "not enough values to unpack"))
  end.

Definition get_audio_embedding (fuel : nat) (audio : tensor T) (model : pyobj)
    (hop_size : Q) (batch_size : option Z)
    : outcome (tensor T * tensor Q) * pyobj :=
  (* Assert audio is of correct shape *)
  if negb (ndim audio =? 2) then (Raise InvalidInput, model)
  else
    (* Make sure the correct model type was passed in *)
    match model with
    | Foreign _ => (Raise TypeMismatch, model)
    | Instance m =>
        let '(r, m') := get_audio_embedding_body fuel audio hop_size batch_size m in
        (r, Instance m')
    end.

(** A model whose buffers have the shapes the constructor gives them. *)
Definition valid_model (m : Model) : Prop :=
  1 <= n_fft m /\
  length (window m) = n_fft m /\
  nrows (mel_scale m) = n_mels m /\
  ncols (mel_scale m) = n_fft m / 2 + 1 /\
  wf_matrix (mel_scale m) /\
  nrows (projection m) = n_mels m /\
  ncols (projection m) = embedding_size m /\
  wf_matrix (projection m).

End Embedding.

(* ------------------------------------------------------------------ *)
(** ** Real arithmetic

    The arithmetic the floating-point operations approximate: real numbers,
    with the Fourier coefficients [exp(-2 pi i k j / n)]. *)

Definition real_twiddle (n k j : nat) : R * R :=
  (cos (2 * PI * INR k * INR j / INR n), - sin (2 * PI * INR k * INR j / INR n))%R.

#[export] Instance RealScalar : Scalar R := {|
  tzero := 0%R;
  tadd := Rplus;
  tmul := Rmult;
  tsqrt := sqrt;
  tlog := ln;
  twiddle := real_twiddle;
  tlit := Q2R
|}.


(** A small model and a small batch, for the instances below: four-sample
    frames under a periodic Hann window, two mel bands, three embedding
    dimensions; two recordings of three samples. *)
Definition example_model : @Model R :=
  mkModel 44100 3 4 2 0 RandomProjectionMelEmbedding_epsilon
          [0; 1 / 2; 1; 1 / 2]%R
          (mkMatrix 2 3 [1; 1 / 2; 0; 0; 1 / 2; 1]%R)
          (mkMatrix 2 3 [1 / 4; 1 / 2; 3 / 4; 1 / 8; 3 / 8; 5 / 8]%R)
          true.

Definition example_audio : tensor R :=
  mkTensor [2; 3] [0; 1 / 2; -1 / 2; 1; 0; -1]%R.

(* ------------------------------------------------------------------ *)
(** ** Construction of the model *)

(** Arithmetic the constructor needs beyond [Scalar]: division, and the
    conversion of a Python [int] to a float. *)
Class ScalarDiv (T : Type) : Type := {
  tdiv : T -> T -> T;
  tof_nat : nat -> T
}.

#[export] Instance RealScalarDiv : ScalarDiv R := {|
  tdiv := Rdiv;
  tof_nat := INR
|}.

Section Construction.
Context {T : Type} `{Scalar T} `{ScalarDiv T}.

(** The functions of other libraries the constructor calls:
    [torch.hann_window(n)], [librosa.filters.mel(sr, n_fft, n_mels)] and
    [torch.rand(rows, cols)] after [torch.random.manual_seed(seed)]. *)
Record Externals : Type := mkExternals {
  hann_window : nat -> list T;
  librosa_mel : Z -> nat -> nat -> @matrix T;
  torch_rand : Z -> nat -> nat -> @matrix T
}.

(** The shapes these functions are documented to return. *)
Definition externals_shapes (ext : Externals) : Prop :=
  (forall n, length (hann_window ext n) = n) /\
  (forall sr n_fft n_mels,
      nrows (librosa_mel ext sr n_fft n_mels) = n_mels /\
      ncols (librosa_mel ext sr n_fft n_mels) = 1 + n_fft / 2 /\
      wf_matrix (librosa_mel ext sr n_fft n_mels)) /\
  (forall seed rows cols,
      nrows (torch_rand ext seed rows cols) = rows /\
      ncols (torch_rand ext seed rows cols) = cols /\
      wf_matrix (torch_rand ext seed rows cols)).

(** [w / c] for a number [c]. *)
Definition matrix_div (w : @matrix T) (c : T) : @matrix T :=
  mkMatrix (nrows w) (ncols w) (map (fun x => tdiv x c) (entries w)).

(** [RandomProjectionMelEmbedding.__init__], statement by statement. *)
Definition RandomProjectionMelEmbedding_init (ext : Externals) : @Model T :=
  (* Create a Hann window buffer to apply to frames prior to FFT. *)
  let window := hann_window ext RandomProjectionMelEmbedding_n_fft in
  (* Create a mel filter buffer. *)
  let mel_scale := librosa_mel ext RandomProjectionMelEmbedding_sample_rate
                               RandomProjectionMelEmbedding_n_fft
                               RandomProjectionMelEmbedding_n_mels in
  (* Projection matrices. *)
  let normalization := tsqrt (tof_nat RandomProjectionMelEmbedding_n_mels) in
  let projection :=
    matrix_div (torch_rand ext RandomProjectionMelEmbedding_seed
                           RandomProjectionMelEmbedding_n_mels
                           RandomProjectionMelEmbedding_embedding_size)
               normalization in
  RandomProjectionMelEmbedding_new window mel_scale projection.

Definition timestamp_embedding_size (self : @Model T) : nat := embedding_size self.


End Construction.

(** Externals for the instances: the periodic Hann window, an all-pass
    stand-in for the mel filter bank and a constant stand-in for the random
    matrix. *)
Definition example_externals : @Externals R :=
  mkExternals
    (fun n => map (fun i => (1 / 2 - 1 / 2 * cos (2 * PI * INR i / INR n))%R) (seq 0 n))
    (fun _ n_fft n_mels => mkMatrix n_mels (1 + n_fft / 2)
                             (repeat 1%R (n_mels * (1 + n_fft / 2))))
    (fun _ rows cols => mkMatrix rows cols (repeat (1 / 2)%R (rows * cols))).

(* ------------------------------------------------------------------ *)
(** * Properties *)

(** ** The definitions on concrete inputs *)

Example py_round_half_even :
  map py_round [1 # 2; 3 # 2; 5 # 2; -1 # 2; -3 # 2; 7 # 4; -7 # 4; 0]%Q
  = [0; 2; 2; 0; -2; 2; -2; 0]%Z.
Proof. reflexivity. Qed.

Example frame_audio_small :
  frame_audio 0%Z 10 (mkTensor [2; 3] [1; 2; 3; 4; 5; 6]%Z) 2 (1 # 2) 4
  = Ret (mkTensor [2; 2; 2] [0; 1; 2; 3; 0; 4; 5; 6]%Z,
         mkTensor [2] [0 * (1 # 2); 1 * (1 # 2)]%Q).
Proof. reflexivity. Qed.

(** The example of the docstring of [get_audio_embedding]: 1.1 s of audio at
    44100 Hz with a hop of 0.25 s gives five frames, at 0, 0.25, 0.5, 0.75
    and 1 s. *)
Example frame_count_docstring :
  frame_count 4096 (1 # 4) 44100 (padded_length 48510 4096) 5 /\
  map (frame_start (1 # 4) 44100) (seq 0 6) = [0; 11025; 22050; 33075; 44100; 55125]%Z.
Proof.
  split; [|reflexivity].
  split; [lia|]. split; [|reflexivity].
  intros i Hi.
  assert (Hcases : i = 1 \/ i = 2 \/ i = 3 \/ i = 4) by lia.
  destruct Hcases as [-> | [-> | [-> | ->]]]; reflexivity.
Qed.

(** ** Lists cut into rows *)

Section Rows.
Context {A : Type}.

Lemma chunks_length (cnt size : nat) (l : list A) :
  length (chunks cnt size l) = cnt.
Proof.
  revert l; induction cnt as [|c IH]; intros l; simpl; [reflexivity|].
  now rewrite IH.
Qed.

Lemma row_at_succ (len i : nat) (l : list A) :
  row_at len (S i) l = row_at len i (skipn len l).
Proof.
  unfold row_at. rewrite skipn_skipn. do 2 f_equal. lia.
Qed.

Lemma chunks_rows (cnt size : nat) (l : list A) :
  chunks cnt size l = map (fun i => row_at size i l) (seq 0 cnt).
Proof.
  revert l; induction cnt as [|c IH]; intros l; [reflexivity|].
  change (chunks (S c) size l) with (firstn size l :: chunks c size (skipn size l)).
  change (seq 0 (S c)) with (0 :: seq 1 c).
  cbn [map]. f_equal.
  rewrite IH, <- seq_shift, map_map.
  apply map_ext; intros i. now rewrite row_at_succ.
Qed.

Lemma nth_chunks (cnt size i : nat) (l : list A) :
  i < cnt -> nth i (chunks cnt size l) [] = row_at size i l.
Proof.
  intros Hi. rewrite chunks_rows.
  rewrite (nth_indep _ [] (row_at size 0 l)) by (rewrite length_map, length_seq; exact Hi).
  rewrite (map_nth (fun i => row_at size i l)), seq_nth by exact Hi.
  reflexivity.
Qed.

Lemma chunks_concat (size : nat) (rows : list (list A)) (tl : list A) :
  Forall (fun r => length r = size) rows ->
  chunks (length rows) size (concat rows ++ tl) = rows.
Proof.
  induction 1 as [|r rows Hr _ IH]; simpl; [reflexivity|].
  rewrite <- app_assoc.
  rewrite firstn_app, skipn_app, Hr, Nat.sub_diag, firstn_all2, skipn_all2 by lia.
  simpl. rewrite app_nil_r. f_equal. exact IH.
Qed.

Lemma chunks_concat_exact (cnt size : nat) (rows : list (list A)) :
  length rows = cnt ->
  Forall (fun r => length r = size) rows ->
  chunks cnt size (concat rows) = rows.
Proof.
  intros <- Hall. rewrite <- (app_nil_r (concat rows)).
  now apply chunks_concat.
Qed.

Lemma chunks_all_length (cnt size : nat) (l : list A) :
  cnt * size <= length l ->
  Forall (fun r => length r = size) (chunks cnt size l).
Proof.
  revert l; induction cnt as [|c IH]; intros l Hl; simpl; constructor.
  - rewrite length_firstn. simpl in Hl. lia.
  - apply IH. rewrite length_skipn. simpl in Hl. lia.
Qed.

Lemma concat_chunks (cnt size : nat) (l : list A) :
  length l = cnt * size -> concat (chunks cnt size l) = l.
Proof.
  revert l; induction cnt as [|c IH]; intros l Hl; simpl.
  - simpl in Hl. now destruct l.
  - rewrite IH by (rewrite length_skipn; simpl in Hl; lia).
    apply firstn_skipn.
Qed.

Lemma length_concat_rows (size : nat) (rows : list (list A)) :
  Forall (fun r => length r = size) rows ->
  length (concat rows) = length rows * size.
Proof.
  induction 1 as [|r rows Hr _ IH]; simpl; [reflexivity|].
  rewrite length_app, IH, Hr. reflexivity.
Qed.

Lemma row_at_concat (size i : nat) (rows : list (list A)) :
  Forall (fun r => length r = size) rows ->
  i < length rows ->
  row_at size i (concat rows) = nth i rows [].
Proof.
  intros Hall Hi.
  rewrite <- (nth_chunks (cnt := length rows)) by exact Hi.
  now rewrite chunks_concat_exact.
Qed.

Lemma row_at_length (size i : nat) (l : list A) :
  (S i) * size <= length l -> length (row_at size i l) = size.
Proof.
  intros Hl. unfold row_at. rewrite length_firstn, length_skipn. simpl in Hl. lia.
Qed.
End Rows.

(** ** Rounding and frame starts *)

Lemma py_round_bounds (x : Q) :
  (2 * Qnum x - Zpos (Qden x) <= 2 * Zpos (Qden x) * py_round x
   <= 2 * Qnum x + Zpos (Qden x))%Z.
Proof.
  unfold py_round. set (a := Qnum x). set (b := Zpos (Qden x)).
  assert (Hb : (0 < b)%Z) by (unfold b; lia).
  pose proof (Z.div_mod a b ltac:(lia)) as Hdm.
  pose proof (Z.mod_pos_bound a b Hb) as Hr.
  destruct (Z.compare_spec (2 * (a mod b)) b) as [E|E|E];
    [destruct (Z.even (a / b))| |]; nia.
Qed.


Lemma frame_start_num (sr : Z) (h : Q) (k : Z) :
  Qnum (inject_Z (sr * k) * h) = (sr * k * Qnum h)%Z /\
  Qden (inject_Z (sr * k) * h) = Qden h.
Proof. split; reflexivity. Qed.

Lemma frame_start_zero (sr : Z) (h : Q) : frame_start_of sr h 0 = 0%Z.
Proof.
  unfold frame_start_of. rewrite Z.mul_0_r.
  destruct h as [hn hd]. unfold py_round. simpl. reflexivity.
Qed.

Lemma frame_start_nonpos (sr : Z) (h : Q) (k : nat) :
  (rate_sign sr h <= 0)%Z -> (frame_start_of sr h (Z.of_nat k) <= 0)%Z.
Proof.
  unfold rate_sign, frame_start_of. intros Hs.
  pose proof (py_round_bounds (inject_Z (sr * Z.of_nat k) * h)) as Hb.
  destruct (frame_start_num sr h (Z.of_nat k)) as [-> ->] in Hb.
  set (r := py_round _) in *. nia.
Qed.

Lemma frame_start_nonneg (sr : Z) (h : Q) (k : nat) :
  (0 <= rate_sign sr h)%Z -> (0 <= frame_start_of sr h (Z.of_nat k))%Z.
Proof.
  unfold rate_sign, frame_start_of. intros Hs.
  pose proof (py_round_bounds (inject_Z (sr * Z.of_nat k) * h)) as Hb.
  destruct (frame_start_num sr h (Z.of_nat k)) as [-> ->] in Hb.
  set (r := py_round _) in *. nia.
Qed.


(** With a positive rate, frame starts grow past any bound. *)
Lemma frame_start_unbounded (sr : Z) (h : Q) (bound : nat) :
  (0 < rate_sign sr h)%Z ->
  (Z.of_nat bound < frame_start_of sr h (Z.of_nat (Pos.to_nat (Qden h) * (bound + 1))))%Z.
Proof.
  unfold rate_sign, frame_start_of. intros Hs.
  set (k := Pos.to_nat (Qden h) * (bound + 1)).
  pose proof (py_round_bounds (inject_Z (sr * Z.of_nat k) * h)) as Hb.
  destruct (frame_start_num sr h (Z.of_nat k)) as [-> ->] in Hb.
  set (r := py_round _) in *.
  assert (Hk : Z.of_nat k = (Zpos (Qden h) * (Z.of_nat bound + 1))%Z).
  { unfold k. rewrite Nat2Z.inj_mul, positive_nat_Z. lia. }
  rewrite Hk in Hb.
  assert (Hd : (0 < Zpos (Qden h))%Z) by lia.
  set (d := Zpos (Qden h)) in *. set (s := (sr * Qnum h)%Z) in *.
  assert (Hprod : (d * (Z.of_nat bound + 1) <= sr * (d * (Z.of_nat bound + 1)) * Qnum h)%Z).
  { replace (sr * (d * (Z.of_nat bound + 1)) * Qnum h)%Z
      with (s * (d * (Z.of_nat bound + 1)))%Z by (unfold s; ring).
    nia. }
  nia.
Qed.

(** ** The framing loop *)

Section LoopProps.
Context {A : Type}.
Variables (audio : tensor A) (n : nat) (h : Q) (sr : Z) (padded : nat).

Variable sl : nat -> tensor A.
Hypothesis Hsl :
  forall k, slice_dim1 (frame_start h sr k) (frame_start h sr k + Z.of_nat n) audio = Ret (sl k).

Lemma frame_loop_out_of_fuel (fuel j : nat) fr ts :
  (forall i, j < i <= j + fuel -> frame_fits n h sr padded i = true) ->
  frame_loop fuel audio n h sr padded (Z.of_nat j) fr ts
             (frame_start h sr j) (frame_start h sr j + Z.of_nat n) = OutOfFuel.
Proof.
  revert j fr ts; induction fuel as [|fuel IH]; intros j fr ts Hfit; [reflexivity|].
  cbn [frame_loop]. rewrite Hsl. cbn [bind].
  replace (Z.of_nat j + 1)%Z with (Z.of_nat (S j)) by lia.
  fold (frame_start h sr (S j)). fold (frame_fits n h sr padded (S j)).
  rewrite (Hfit (S j)) by lia. cbn [negb].
  apply IH. intros i Hi. apply Hfit. lia.
Qed.

Lemma frame_loop_returns (d fuel j : nat) fr ts :
  1 <= d <= fuel ->
  (forall i, j < i < j + d -> frame_fits n h sr padded i = true) ->
  frame_fits n h sr padded (j + d) = false ->
  frame_loop fuel audio n h sr padded (Z.of_nat j) fr ts
             (frame_start h sr j) (frame_start h sr j + Z.of_nat n)
  = Ret (fr ++ map sl (seq j d), ts ++ map (frame_stamp h) (seq j d)).
Proof.
  revert d j fr ts; induction fuel as [|fuel IH]; intros d j fr ts Hd Hfit Hstop; [lia|].
  cbn [frame_loop]. rewrite Hsl. cbn [bind].
  replace (Z.of_nat j + 1)%Z with (Z.of_nat (S j)) by lia.
  fold (frame_start h sr (S j)). fold (frame_fits n h sr padded (S j)). fold (frame_stamp h j).
  destruct d as [|[|d]]; [lia| |].
  - replace (j + 1) with (S j) in Hstop by lia. rewrite Hstop. reflexivity.
  - rewrite (Hfit (S j)) by lia. cbn [negb].
    rewrite (IH (S d) (S j)).
    + cbn [seq map]. now rewrite <- !app_assoc.
    + lia.
    + intros i Hi. apply Hfit. lia.
    + replace (S j + S d) with (j + S (S d)) by lia. exact Hstop.
Qed.

(** A stop index, when there is one, is unique. *)
Lemma frame_count_unique (F G : nat) : frame_count n h sr padded F -> frame_count n h sr padded G -> F = G.
Proof.
  intros (HF1 & HF2 & HF3) (HG1 & HG2 & HG3).
  destruct (Nat.lt_trichotomy F G) as [Hlt|[Heq|Hgt]]; [|exact Heq|].
  - rewrite (HG2 F) in HF3 by lia. discriminate.
  - rewrite (HF2 G) in HG3 by lia. discriminate.
Qed.

(** If some frame does not fit, there is a first one. *)
Lemma first_stop (d j : nat) :
  1 <= d -> frame_fits n h sr padded (j + d) = false ->
  exists F, j < F <= j + d /\ (forall i, j < i < F -> frame_fits n h sr padded i = true) /\ frame_fits n h sr padded F = false.
Proof.
  revert j; induction d as [|d IH]; intros j Hd Hstop; [lia|].
  destruct (frame_fits n h sr padded (S j)) eqn:Hfit.
  - destruct d as [|d].
    + replace (j + 1) with (S j) in Hstop by lia. congruence.
    + destruct (IH (S j)) as (F & HF & Hbefore & HstopF); [lia| |].
      * replace (S j + S d) with (j + S (S d)) by lia. exact Hstop.
      * exists F. split; [lia|]. split; [|exact HstopF].
        intros i Hi. destruct (Nat.eq_dec i (S j)) as [->|Hne]; [exact Hfit|].
        apply Hbefore. lia.
  - exists (S j). split; [lia|]. split; [|exact Hfit].
    intros i Hi. lia.
Qed.

Lemma frame_loop_from_zero (fuel : nat) fr ts :
  frame_loop fuel audio n h sr padded 0%Z fr ts 0%Z (Z.of_nat n)
  = frame_loop fuel audio n h sr padded (Z.of_nat 0) fr ts
               (frame_start h sr 0) (frame_start h sr 0 + Z.of_nat n).
Proof.
  unfold frame_start. cbn [Z.of_nat]. rewrite frame_start_zero. reflexivity.
Qed.

(** The loop's outcome, for any fuel, given the stop index. *)
Lemma frame_loop_stop (F fuel : nat) :
  frame_count n h sr padded F ->
  frame_loop fuel audio n h sr padded 0%Z [] [] 0%Z (Z.of_nat n)
  = if F <=? fuel then Ret (map sl (seq 0 F), map (frame_stamp h) (seq 0 F)) else OutOfFuel.
Proof.
  intros (HF1 & HF2 & HF3). rewrite frame_loop_from_zero.
  destruct (F <=? fuel) eqn:Hcmp.
  - apply Nat.leb_le in Hcmp.
    rewrite (@frame_loop_returns F fuel 0 [] []); [reflexivity|lia| |exact HF3].
    intros i Hi. apply HF2. lia.
  - apply Nat.leb_gt in Hcmp.
    apply frame_loop_out_of_fuel. intros i Hi. apply HF2. lia.
Qed.

Lemma frame_loop_never_stops (fuel : nat) :
  (forall i, 1 <= i -> frame_fits n h sr padded i = true) ->
  frame_loop fuel audio n h sr padded 0%Z [] [] 0%Z (Z.of_nat n) = OutOfFuel.
Proof.
  intros Hfit. rewrite frame_loop_from_zero.
  apply frame_loop_out_of_fuel. intros i Hi. apply Hfit. lia.
Qed.
End LoopProps.

(** ** Framing a 2-D batch *)

Lemma half_le (n : nat) : n / 2 <= n.
Proof. apply Nat.Div0.div_le_upper_bound. lia. Qed.

Lemma padded_length_eq (Ns n : nat) : padded_length Ns n = Ns + n.
Proof. unfold padded_length. pose proof (half_le n). lia. Qed.

Lemma shape_eqb_refl (s : list nat) : shape_eqb s s = true.
Proof. unfold shape_eqb. destruct (list_eq_dec Nat.eq_dec s s); congruence. Qed.

Lemma slice_bounds_inrange (d n : nat) (a : Z) :
  (0 <= a)%Z -> (a + Z.of_nat n <= Z.of_nat d)%Z ->
  slice_bounds d a (a + Z.of_nat n) = (Z.to_nat a, n).
Proof.
  intros Ha Hb. unfold slice_bounds, slice_index.
  destruct (Z.ltb_spec a 0); [lia|].
  destruct (Z.ltb_spec (a + Z.of_nat n) 0); [lia|].
  f_equal; lia.
Qed.

Lemma window_at_length {A} (n : nat) (a : Z) (row : list A) :
  (0 <= a)%Z -> (a + Z.of_nat n <= Z.of_nat (length row))%Z ->
  length (window_at n a row) = n.
Proof.
  intros Ha Hb. unfold window_at. rewrite length_firstn, length_skipn. lia.
Qed.

Lemma stack_dim1_uniform {A} (ts : list (tensor A)) (d0 : nat) (rest : list nat) :
  ts <> [] ->
  (forall t, In t ts -> shape t = d0 :: rest) ->
  stack_dim1 ts
  = Ret (mkTensor (d0 :: length ts :: rest)
           (concat (map (fun i => concat (map (fun t => row_at (numel rest) i (data t)) ts))
                        (seq 0 d0)))).
Proof.
  intros Hne Hsh. unfold stack_dim1.
  destruct ts as [|t0 ts']; [congruence|].
  assert (Hall : forallb (fun t => shape_eqb (shape t) (shape t0)) (t0 :: ts') = true).
  { apply forallb_forall. intros t Ht.
    rewrite (Hsh t Ht), (Hsh t0 (or_introl eq_refl)). apply shape_eqb_refl. }
  rewrite Hall, (Hsh t0 (or_introl eq_refl)). reflexivity.
Qed.

Section Frame2D.
Context {A : Type}.
Variables (zero : A) (audio : tensor A) (R Ns n : nat) (h : Q) (sr : Z).
Hypothesis Hshape : shape audio = [R; Ns].
Hypothesis Hwf : wf audio.

Lemma data_length_2d : length (data audio) = R * Ns.
Proof. unfold wf in Hwf. rewrite Hwf, Hshape. simpl. lia. Qed.

Lemma recording_length (r : nat) : r < R -> length (recording audio Ns r) = Ns.
Proof.
  intros Hr. apply row_at_length. rewrite data_length_2d. nia.
Qed.

Lemma padded_recording_length (r : nat) :
  r < R -> length (padded_recording zero audio Ns n r) = padded_length Ns n.
Proof.
  intros Hr. unfold padded_recording, padded_length.
  rewrite !length_app, !repeat_length, recording_length by exact Hr. lia.
Qed.

Lemma padded_rows_length :
  Forall (fun row => length row = padded_length Ns n) (padded_rows zero audio R Ns n).
Proof.
  apply Forall_map, Forall_forall. intros r Hr.
  apply padded_recording_length. apply in_seq in Hr. lia.
Qed.

Lemma nth_padded_rows (r : nat) :
  r < R -> nth r (padded_rows zero audio R Ns n) [] = padded_recording zero audio Ns n r.
Proof.
  intros Hr. unfold padded_rows.
  rewrite (nth_indep _ [] (padded_recording zero audio Ns n 0))
    by (rewrite length_map, length_seq; exact Hr).
  rewrite (map_nth (padded_recording zero audio Ns n)), seq_nth by exact Hr.
  reflexivity.
Qed.

Lemma pad_last_2d :
  pad_last zero (n / 2) (n - n / 2) audio = Ret (padded_audio zero audio R Ns n).
Proof.
  unfold pad_last, split_last. rewrite Hshape. cbn [rev app].
  unfold padded_audio, padded_rows. cbn [numel fold_right].
  rewrite Nat.mul_1_r, chunks_rows, map_map. reflexivity.
Qed.

Lemma slice_k_ok (k : nat) :
  slice_dim1 (frame_start h sr k) (frame_start h sr k + Z.of_nat n) (padded_audio zero audio R Ns n)
  = Ret ((slice_k zero audio R Ns n h sr) k).
Proof.
  unfold slice_k, slice_dim1. cbn [shape padded_audio].
  destruct (slice_bounds _ _ _). reflexivity.
Qed.

Lemma slice_k_inrange (k : nat) :
  (0 <= frame_start h sr k)%Z ->
  (frame_start h sr k + Z.of_nat n <= Z.of_nat (padded_length Ns n))%Z ->
  (slice_k zero audio R Ns n h sr) k = mkTensor [R; n]
                (concat (map (window_at n (frame_start h sr k)) (padded_rows zero audio R Ns n))).
Proof.
  intros Hlo Hhi. unfold slice_k, slice_dim1. cbn [shape padded_audio].
  rewrite slice_bounds_inrange by assumption.
  cbn [numel fold_right]. rewrite !Nat.mul_1_r.
  unfold padded_audio at 1. cbn [data].
  rewrite chunks_concat_exact.
  - reflexivity.
  - unfold padded_rows. now rewrite length_map, length_seq.
  - exact padded_rows_length.
Qed.

(** Every frame up to the frame count lies inside the padded signal. *)
Lemma frame_count_inrange (F k : nat) :
  frame_count n h sr (padded_length Ns n) F -> k < F ->
  (0 < rate_sign sr h)%Z /\
  (0 <= frame_start h sr k)%Z /\
  (frame_start h sr k + Z.of_nat n <= Z.of_nat (padded_length Ns n))%Z.
Proof.
  intros (HF1 & HF2 & HF3) Hk.
  assert (Hsign : (0 < rate_sign sr h)%Z).
  { destruct (Z.lt_ge_cases 0 (rate_sign sr h)) as [Hpos|Hneg]; [exact Hpos|].
    exfalso. pose proof (frame_start_nonpos sr h F Hneg) as Hs.
    unfold frame_fits in HF3. apply Z.leb_gt in HF3.
    unfold frame_start in HF3. rewrite padded_length_eq in HF3. lia. }
  split; [exact Hsign|]. split.
  - apply frame_start_nonneg. lia.
  - destruct k as [|k].
    + unfold frame_start. cbn [Z.of_nat]. rewrite frame_start_zero.
      rewrite padded_length_eq. lia.
    + specialize (HF2 (S k) ltac:(lia)).
      unfold frame_fits in HF2. now apply Z.leb_le in HF2.
Qed.

Lemma stack_frames (F : nat) :
  frame_count n h sr (padded_length Ns n) F ->
  stack_dim1 (map (slice_k zero audio R Ns n h sr) (seq 0 F)) = Ret (frames_tensor zero audio R Ns n h sr F).
Proof.
  intros HF.
  assert (Hk : forall k, In k (seq 0 F) ->
             (slice_k zero audio R Ns n h sr) k = mkTensor [R; n]
               (concat (map (window_at n (frame_start h sr k)) (padded_rows zero audio R Ns n)))).
  { intros k Hin. apply in_seq in Hin.
    destruct (frame_count_inrange HF (k := k)) as (_ & Hlo & Hhi); [lia|].
    now apply slice_k_inrange. }
  rewrite (stack_dim1_uniform (d0 := R) (rest := [n])).
  - rewrite length_map, length_seq. unfold frames_tensor. do 3 f_equal.
    apply map_ext_in. intros r Hr. apply in_seq in Hr.
    rewrite map_map. f_equal. apply map_ext_in. intros k Hin.
    rewrite (Hk k Hin). cbn [data numel fold_right]. rewrite Nat.mul_1_r.
    apply in_seq in Hin.
    destruct (frame_count_inrange HF (k := k)) as (_ & Hlo & Hhi); [lia|].
    rewrite row_at_concat.
    + rewrite (nth_indep _ [] (window_at n (frame_start h sr k) []))
        by (rewrite length_map; unfold padded_rows; rewrite length_map, length_seq; lia).
      rewrite (map_nth (window_at n (frame_start h sr k))).
      rewrite nth_padded_rows by lia. reflexivity.
    + apply Forall_map. eapply Forall_impl; [|exact padded_rows_length].
      intros row Hrow. apply window_at_length; [exact Hlo|]. now rewrite Hrow.
    + rewrite length_map. unfold padded_rows. rewrite length_map, length_seq. lia.
  - destruct HF as (HF1 & _). destruct F; [lia|]. discriminate.
  - intros t Ht. apply in_map_iff in Ht. destruct Ht as (k & <- & Hin).
    now rewrite (Hk k Hin).
Qed.

(** The outcome of [frame_audio] on a 2-D batch, for any fuel, once the
    frame count is known. *)
Lemma frame_audio_2d (F fuel : nat) :
  frame_count n h sr (padded_length Ns n) F ->
  frame_audio zero fuel audio n h sr
  = if F <=? fuel
    then Ret (frames_tensor zero audio R Ns n h sr F,
              tensor_of_list (map (frame_stamp h) (seq 0 F)))
    else OutOfFuel.
Proof.
  intros HF. unfold frame_audio. rewrite pad_last_2d. cbn [bind].
  cbn [shape padded_audio nth_error].
  rewrite (frame_loop_stop (padded_audio zero audio R Ns n) (slice_k zero audio R Ns n h sr) slice_k_ok fuel HF).
  destruct (F <=? fuel); [|reflexivity].
  cbn [bind]. rewrite (stack_frames HF). reflexivity.
Qed.

(** With a non-positive rate the exit test never succeeds. *)
Lemma frame_fits_forever (k : nat) :
  (rate_sign sr h <= 0)%Z -> frame_fits n h sr (padded_length Ns n) k = true.
Proof.
  intros Hs. unfold frame_fits. apply Z.leb_le.
  pose proof (frame_start_nonpos sr h k Hs). unfold frame_start.
  rewrite padded_length_eq. lia.
Qed.

Lemma frame_audio_2d_diverges (fuel : nat) :
  (rate_sign sr h <= 0)%Z ->
  frame_audio zero fuel audio n h sr = OutOfFuel.
Proof.
  intros Hs. unfold frame_audio. rewrite pad_last_2d. cbn [bind].
  cbn [shape padded_audio nth_error].
  rewrite (@frame_loop_never_stops _ (padded_audio zero audio R Ns n) n h sr (padded_length Ns n)
             (slice_k zero audio R Ns n h sr) slice_k_ok fuel); [reflexivity|].
  intros i _. now apply frame_fits_forever.
Qed.

(** With a positive rate there is a frame count. *)
Lemma frame_count_exists :
  (0 < rate_sign sr h)%Z -> exists F, frame_count n h sr (padded_length Ns n) F.
Proof.
  intros Hs.
  pose proof (frame_start_unbounded sr h (padded_length Ns n) Hs) as Hbig.
  set (K := Pos.to_nat (Qden h) * (padded_length Ns n + 1)) in *.
  assert (HK : 1 <= K) by (unfold K; pose proof (Pos2Nat.is_pos (Qden h)); nia).
  destruct (@first_stop n h sr (padded_length Ns n) K 0 HK) as (F & HF & Hbefore & Hstop).
  - unfold frame_fits, frame_start. cbn [Nat.add]. apply Z.leb_gt. lia.
  - exists F. split; [lia|]. split; [|exact Hstop].
    intros i Hi. apply Hbefore. lia.
Qed.

(** [frame_audio] on a 2-D batch never raises: it either has not returned
    yet or returns the frame tensor. *)
Lemma frame_audio_2d_cases (fuel : nat) :
  frame_audio zero fuel audio n h sr = OutOfFuel \/
  exists F, frame_count n h sr (padded_length Ns n) F /\ F <= fuel /\
    frame_audio zero fuel audio n h sr
    = Ret (frames_tensor zero audio R Ns n h sr F,
           tensor_of_list (map (frame_stamp h) (seq 0 F))).
Proof.
  destruct (Z.lt_ge_cases 0 (rate_sign sr h)) as [Hpos|Hneg].
  - destruct (frame_count_exists Hpos) as (F & HF).
    rewrite (frame_audio_2d fuel HF).
    destruct (Nat.leb_spec F fuel); [right|left; reflexivity].
    exists F. auto.
  - left. now apply frame_audio_2d_diverges.
Qed.

Lemma frames_tensor_wf (F : nat) :
  frame_count n h sr (padded_length Ns n) F ->
  wf (frames_tensor zero audio R Ns n h sr F).
Proof.
  intros HF. unfold wf, frames_tensor. cbn [data shape numel fold_right].
  rewrite (length_concat_rows (size := F * n)).
  - rewrite length_map, length_seq. lia.
  - apply Forall_map, Forall_forall. intros r Hr. apply in_seq in Hr.
    rewrite (length_concat_rows (size := n)).
    + now rewrite length_map, length_seq.
    + apply Forall_map, Forall_forall. intros k Hk. apply in_seq in Hk.
      destruct (frame_count_inrange HF (k := k)) as (_ & Hlo & Hhi); [lia|].
      apply window_at_length; [exact Hlo|].
      rewrite padded_recording_length by lia. exact Hhi.
Qed.
End Frame2D.

(** ** Reading frames out of the frame tensor *)

Lemma concat_concat_map {A} (bl : list (list (list A))) :
  concat (map (@concat A) bl) = concat (concat bl).
Proof.
  induction bl as [|b bl IH]; simpl; [reflexivity|].
  now rewrite concat_app, IH.
Qed.

Lemma nth_map_seq {B} (g : nat -> B) (len i : nat) (d : B) :
  i < len -> nth i (map g (seq 0 len)) d = g i.
Proof.
  intros Hi.
  rewrite (nth_indep _ d (g 0)) by (rewrite length_map, length_seq; exact Hi).
  now rewrite (map_nth g), seq_nth.
Qed.

Lemma row_at_nested {A} (g : nat -> nat -> list A) (R F n r k : nat) :
  (forall r k, r < R -> k < F -> length (g r k) = n) ->
  r < R -> k < F ->
  row_at n (r * F + k)
         (concat (map (fun r => concat (map (g r) (seq 0 F))) (seq 0 R)))
  = g r k.
Proof.
  intros Hlen Hr Hk.
  set (blocks := map (fun r => map (g r) (seq 0 F)) (seq 0 R)).
  assert (Hblocks : Forall (fun b => length b = F) blocks).
  { apply Forall_map, Forall_forall. intros r' _. now rewrite length_map, length_seq. }
  assert (Hrows : Forall (fun row => length row = n) (concat blocks)).
  { apply Forall_concat, Forall_map, Forall_forall. intros r' Hr'. apply in_seq in Hr'.
    apply Forall_map, Forall_forall. intros k' Hk'. apply in_seq in Hk'.
    apply Hlen; lia. }
  assert (Hcount : length (concat blocks) = R * F).
  { rewrite (length_concat_rows Hblocks). unfold blocks.
    now rewrite length_map, length_seq. }
  replace (map (fun r0 => concat (map (g r0) (seq 0 F))) (seq 0 R))
    with (map (@concat A) blocks) by (unfold blocks; now rewrite map_map).
  rewrite concat_concat_map, row_at_concat by (try exact Hrows; nia).
  assert (Hblock : row_at F r (concat blocks) = map (g r) (seq 0 F)).
  { rewrite row_at_concat; [|exact Hblocks|unfold blocks; now rewrite length_map, length_seq].
    unfold blocks. now rewrite nth_map_seq. }
  rewrite <- (nth_map_seq (g r) [] Hk), <- Hblock.
  unfold row_at. rewrite nth_firstn, nth_skipn.
  destruct (Nat.ltb_spec k F); [reflexivity|lia].
Qed.

Lemma at2_frames_tensor {A} (zero : A) (audio : tensor A) (R Ns n : nat)
    (h : Q) (sr : Z) (F r k : nat) :
  shape audio = [R; Ns] -> wf audio ->
  frame_count n h sr (padded_length Ns n) F ->
  r < R -> k < F ->
  at2 (frames_tensor zero audio R Ns n h sr F) r k
  = window_at n (frame_start h sr k) (padded_recording zero audio Ns n r).
Proof.
  intros Hshape Hwf HF Hr Hk. unfold at2, frames_tensor. cbn [shape data].
  apply (row_at_nested
           (fun r k => window_at n (frame_start h sr k) (padded_recording zero audio Ns n r)));
    [|exact Hr|exact Hk].
  intros r' k' Hr' Hk'.
  destruct (frame_count_inrange Ns HF (k := k')) as (_ & Hlo & Hhi); [lia|].
  apply window_at_length; [exact Hlo|].
  rewrite (padded_recording_length zero n Hshape Hwf) by lia. exact Hhi.
Qed.

Lemma rate_sign_pos (sr : Z) (h : Q) :
  (0 < sr)%Z -> (0 < h)%Q -> (0 < rate_sign sr h)%Z.
Proof.
  intros Hsr Hh. unfold rate_sign. unfold Qlt in Hh. simpl in Hh. nia.
Qed.

Lemma rate_sign_nonpos (sr : Z) (h : Q) :
  (0 < sr)%Z -> (h <= 0)%Q -> (rate_sign sr h <= 0)%Z.
Proof.
  intros Hsr Hh. unfold rate_sign. unfold Qle in Hh. simpl in Hh. nia.
Qed.


(* ------------------------------------------------------------------ *)
(** ** The Framer *)



(** C10.  For a 2-D batch and a positive sample rate, the loop of
    [frame_audio] terminates exactly when [hop_size > 0]; with
    [hop_size <= 0] every next frame ends inside the padded signal and the
    call never returns. *)
Theorem frame_audio_terminates_iff {A} (zero : A) (audio : tensor A)
    (R Ns n : nat) (h : Q) (sr : Z) :
  shape audio = [R; Ns] -> wf audio -> (0 < sr)%Z ->
  ((exists fuel, frame_audio zero fuel audio n h sr <> OutOfFuel) <-> (0 < h)%Q) /\
  ((h <= 0)%Q ->
   (forall k, 1 <= k ->
      (frame_start h sr k + Z.of_nat n <= Z.of_nat (Ns + n))%Z) /\
   (forall fuel, frame_audio zero fuel audio n h sr = OutOfFuel)).
Proof.
  intros Hshape Hwf Hsr.
  assert (Hdiv : (h <= 0)%Q ->
            (forall k, 1 <= k ->
               (frame_start h sr k + Z.of_nat n <= Z.of_nat (Ns + n))%Z) /\
            (forall fuel, frame_audio zero fuel audio n h sr = OutOfFuel)).
  { intros Hh. pose proof (rate_sign_nonpos Hsr Hh) as Hs. split.
    - intros k _.
      pose proof (frame_fits_forever Ns n h sr k Hs) as Hfit.
      unfold frame_fits in Hfit. apply Z.leb_le in Hfit.
      now rewrite padded_length_eq in Hfit.
    - intros fuel. now apply (frame_audio_2d_diverges zero audio n h sr Hshape). }
  split; [split|exact Hdiv].
  - intros (fuel & Hfuel).
    destruct (Qlt_le_dec 0 h) as [Hpos|Hneg]; [exact Hpos|].
    exfalso. apply Hfuel. now apply Hdiv.
  - intros Hh.
    destruct (frame_count_exists Ns n h sr (rate_sign_pos Hsr Hh)) as (F & HF).
    exists F. rewrite (frame_audio_2d zero Hshape Hwf F HF).
    rewrite Nat.leb_refl. discriminate.
Qed.

(* ------------------------------------------------------------------ *)
(** ** The embed transform, row by row *)

Section ForwardRows.
Context {T : Type} `{Scalar T}.

Lemma tensor_map_rows {A B} (f : A -> B) (sh : list nat) (rows : list (list A)) :
  tensor_map f (mkTensor sh (concat rows)) = mkTensor sh (concat (map (map f) rows)).
Proof. unfold tensor_map. cbn [shape data]. now rewrite concat_map. Qed.

Lemma mul_rows_length (u v : list T) :
  length u = length v -> length (mul_rows u v) = length v.
Proof.
  intros Huv. unfold mul_rows. rewrite length_map, length_combine. lia.
Qed.

Lemma rfft_row_length (row : list T) : length (rfft_row row) = length row / 2 + 1.
Proof. unfold rfft_row. now rewrite length_map, length_seq. Qed.

Lemma matmul_row_length (w : matrix) (row : list T) :
  length (matmul_row w row) = ncols w.
Proof. unfold matmul_row. now rewrite length_map, length_seq. Qed.

Lemma mul_broadcast_rows (N n : nat) (rows : list (list T)) (w : list T) :
  length rows = N -> Forall (fun r => length r = n) rows -> length w = n ->
  mul_broadcast (mkTensor [N; n] (concat rows)) w
  = Ret (mkTensor [N; n] (concat (map (fun row => mul_rows row w) rows))).
Proof.
  intros HN Hrows Hw. unfold mul_broadcast, split_last. cbn [shape rev app data].
  rewrite Hw, Nat.eqb_refl. cbn [numel fold_right]. rewrite Nat.mul_1_r.
  now rewrite chunks_concat_exact.
Qed.

Lemma rfft_rows (N n : nat) (rows : list (list T)) :
  length rows = N -> Forall (fun r => length r = n) rows -> 1 <= n ->
  rfft (mkTensor [N; n] (concat rows))
  = Ret (mkTensor [N; n / 2 + 1] (concat (map rfft_row rows))).
Proof.
  intros HN Hrows Hn. unfold rfft, split_last. cbn [shape rev app data].
  destruct (Nat.eqb_spec n 0); [lia|].
  cbn [numel fold_right]. rewrite Nat.mul_1_r.
  now rewrite chunks_concat_exact.
Qed.

Lemma matmul_rows (N k : nat) (rows : list (list T)) (w : matrix) :
  length rows = N -> Forall (fun r => length r = k) rows -> k = nrows w ->
  matmul (mkTensor [N; k] (concat rows)) w
  = Ret (mkTensor [N; ncols w] (concat (map (matmul_row w) rows))).
Proof.
  intros HN Hrows Hk. unfold matmul, split_last. cbn [shape rev app data].
  rewrite <- Hk, Nat.eqb_refl. cbn [numel fold_right]. rewrite Nat.mul_1_r.
  now rewrite chunks_concat_exact.
Qed.

Lemma Forall_length_map {A B} (f : list A -> list B) (k : nat) (rows : list (list A)) :
  (forall r, In r rows -> length (f r) = k) ->
  Forall (fun r => length r = k) (map f rows).
Proof. intros Hf. apply Forall_map, Forall_forall. exact Hf. Qed.

(** The mel reduction of a batch given by its rows. *)
Lemma mel_reduction_rows (m : Model) (N : nat) (rows : list (list T)) :
  valid_model m -> length rows = N ->
  Forall (fun r => length r = n_fft m) rows ->
  mel_reduction m (mkTensor [N; n_fft m] (concat rows))
  = Ret (mkTensor [N; n_mels m]
           (concat (map (fun row =>
                      matmul_row (transpose (mel_scale m))
                        (map pow2 (map cabs (rfft_row (mul_rows row (window m))))))
                    rows))).
Proof.
  intros (Hn & Hw & Hmr & Hmc & Hmwf & Hpr & Hpc & Hpwf) HN Hrows.
  unfold mel_reduction.
  rewrite (@mul_broadcast_rows N (n_fft m) rows (window m) HN Hrows Hw). cbn [bind].
  assert (H1 : Forall (fun r => length r = n_fft m)
                 (map (fun row => mul_rows row (window m)) rows)).
  { apply Forall_length_map. intros r Hr.
    rewrite Forall_forall in Hrows. rewrite mul_rows_length; [exact Hw|].
    rewrite (Hrows r Hr). now rewrite Hw. }
  rewrite (@rfft_rows N (n_fft m)); [|now rewrite length_map|exact H1|exact Hn].
  cbn [bind]. rewrite !tensor_map_rows.
  assert (H2 : Forall (fun r => length r = n_fft m / 2 + 1)
                 (map (map pow2) (map (map cabs)
                    (map rfft_row (map (fun row => mul_rows row (window m)) rows))))).
  { rewrite !map_map. apply Forall_length_map. intros r Hr.
    rewrite !length_map, rfft_row_length.
    rewrite Forall_forall in Hrows. rewrite mul_rows_length; [now rewrite Hw|].
    rewrite (Hrows r Hr). now rewrite Hw. }
  rewrite (@matmul_rows N (n_fft m / 2 + 1));
    [|now rewrite !length_map|exact H2|cbn; now rewrite Hmc].
  cbn [transpose ncols]. rewrite Hmr, !map_map. reflexivity.
Qed.

(** [forward] on a batch given by its rows applies [forward_row] to every
    row. *)
Lemma forward_rows (m : Model) (N : nat) (rows : list (list T)) :
  valid_model m -> length rows = N ->
  Forall (fun r => length r = n_fft m) rows ->
  forward m (mkTensor [N; n_fft m] (concat rows))
  = Ret (mkTensor [N; embedding_size m] (concat (map (forward_row m) rows))).
Proof.
  intros Hvalid HN Hrows.
  pose proof (@mel_reduction_rows m N rows Hvalid HN Hrows) as Hmel.
  destruct Hvalid as (Hn & Hw & Hmr & Hmc & Hmwf & Hpr & Hpc & Hpwf).
  unfold mel_reduction in Hmel. unfold forward.
  destruct (mul_broadcast _ _) as [x1| |]; cbn [bind] in *; try discriminate.
  destruct (rfft x1) as [x2| |]; cbn [bind] in *; try discriminate.
  rewrite Hmel. cbn [bind]. rewrite tensor_map_rows.
  rewrite (@matmul_rows N (n_mels m)).
  - rewrite Hpc, !map_map. reflexivity.
  - now rewrite !length_map.
  - rewrite map_map. apply Forall_length_map. intros r Hr.
    rewrite length_map, matmul_row_length. cbn. exact Hmr.
  - now rewrite Hpr.
Qed.

Lemma forward_row_length (m : Model) (row : list T) :
  length (forward_row m row) = ncols (projection m).
Proof. unfold forward_row. apply matmul_row_length. Qed.

(** [forward] on a well-formed (N x n_fft) batch. *)
Lemma forward_batch (m : Model) (N : nat) (d : list T) :
  valid_model m -> length d = N * n_fft m ->
  forward m (mkTensor [N; n_fft m] d)
  = Ret (mkTensor [N; embedding_size m]
           (concat (map (forward_row m) (chunks N (n_fft m) d)))).
Proof.
  intros Hvalid Hd.
  rewrite <- (concat_chunks N (n_fft m) d Hd) at 1.
  apply forward_rows; [exact Hvalid|apply chunks_length|].
  apply chunks_all_length. lia.
Qed.
End ForwardRows.

(* ------------------------------------------------------------------ *)
(** ** The embed transform against the contract of the specification *)

Lemma combine_seq_nth {A B} (u : list A) (v : list B) (n : nat) (du : A) (dv : B) :
  length u = n -> length v = n ->
  combine u v = map (fun k => (nth k u du, nth k v dv)) (seq 0 n).
Proof.
  revert v n; induction u as [|a u IH]; intros v n Hu Hv.
  - simpl in Hu. subst n. reflexivity.
  - destruct v as [|b v]; simpl in Hu, Hv; [lia|]. subst n.
    cbn [combine]. cbn [seq map nth].
    f_equal. rewrite <- seq_shift, map_map. apply IH; lia.
Qed.

Lemma fold_left_over_map {A B C} (f : A -> B -> A) (g : C -> B) (l : list C) (a : A) :
  fold_left f (map g l) a = fold_left (fun acc x => f acc (g x)) l a.
Proof. revert a; induction l as [|x l IH]; intros a; simpl; [reflexivity|apply IH]. Qed.

Lemma fold_left_ext_in {A B} (f g : A -> B -> A) (l : list B) (a : A) :
  (forall acc x, In x l -> f acc x = g acc x) ->
  fold_left f l a = fold_left g l a.
Proof.
  revert a; induction l as [|x l IH]; intros a Hfg; simpl; [reflexivity|].
  rewrite Hfg by (left; reflexivity). apply IH.
  intros acc y Hy. apply Hfg. now right.
Qed.

Lemma nth_concat_rows {A} (size k b : nat) (rows : list (list A)) (d : A) :
  Forall (fun r => length r = size) rows ->
  k < length rows -> b < size ->
  nth (k * size + b) (concat rows) d = nth b (nth k rows []) d.
Proof.
  intros Hrows Hk Hb.
  rewrite <- (row_at_concat Hrows Hk). unfold row_at.
  rewrite nth_firstn, nth_skipn.
  destruct (Nat.ltb_spec b size); [reflexivity|lia].
Qed.

Section SpecRefinement.
Context {T : Type} `{Scalar T}.

Lemma dot_index (u v : list T) (n : nat) :
  length u = n -> length v = n ->
  dot u v = fold_left (fun acc k => tadd acc (tmul (nth k u tzero) (nth k v tzero)))
                      (seq 0 n) tzero.
Proof.
  intros Hu Hv. unfold dot.
  rewrite (combine_seq_nth u v tzero tzero Hu Hv), fold_left_over_map.
  reflexivity.
Qed.

Lemma column_length (w : matrix) (c : nat) : length (column w c) = nrows w.
Proof. unfold column. now rewrite length_map, length_seq. Qed.

Lemma nth_column (w : matrix) (c k : nat) :
  k < nrows w -> nth k (column w c) tzero = nth (k * ncols w + c) (entries w) tzero.
Proof. intros Hk. unfold column. now rewrite nth_map_seq. Qed.

(** Entry [k] of column [b] of the transposed matrix is entry [(b, k)] of
    the matrix. *)
Lemma nth_column_transpose (w : matrix) (b k : nat) :
  b < nrows w -> k < ncols w ->
  nth k (column (transpose w) b) tzero = nth (b * ncols w + k) (entries w) tzero.
Proof.
  intros Hb Hk. rewrite nth_column by (cbn; exact Hk).
  cbn [transpose ncols entries].
  rewrite nth_concat_rows.
  - rewrite nth_map_seq by exact Hk. now apply nth_column.
  - apply Forall_map, Forall_forall. intros c _. apply column_length.
  - now rewrite length_map, length_seq.
  - exact Hb.
Qed.

Variable m : @Model T.
Hypothesis Hvalid : valid_model m.

Lemma mul_rows_spec (frame : list T) :
  length frame = n_fft m -> mul_rows frame (window m) = spec_windowed m frame.
Proof.
  intros Hf. destruct Hvalid as (_ & Hw & _).
  unfold mul_rows, spec_windowed.
  rewrite (combine_seq_nth frame (window m) tzero tzero Hf Hw), map_map.
  reflexivity.
Qed.

Lemma rfft_row_spec (x : list T) :
  length x = n_fft m -> rfft_row x = spec_dft m x.
Proof.
  intros Hx. unfold rfft_row, spec_dft. rewrite Hx.
  apply map_ext. intros k.
  rewrite (combine_seq_nth (seq 0 (n_fft m)) x 0 tzero) by (try apply length_seq; exact Hx).
  rewrite fold_left_over_map. apply fold_left_ext_in.
  intros acc j Hj. apply in_seq in Hj. cbn [fst snd].
  rewrite seq_nth by lia. reflexivity.
Qed.

Lemma matmul_mel_spec (P : list T) :
  length P = n_fft m / 2 + 1 ->
  matmul_row (transpose (mel_scale m)) P = spec_mel m P.
Proof.
  intros HP. destruct Hvalid as (_ & _ & Hmr & Hmc & _).
  unfold matmul_row, spec_mel. cbn [transpose ncols]. rewrite Hmr.
  apply map_ext_in. intros b Hb. apply in_seq in Hb.
  rewrite dot_index with (n := n_fft m / 2 + 1); [|exact HP|].
  - apply fold_left_ext_in. intros acc k Hk. apply in_seq in Hk.
    rewrite nth_column_transpose by lia. now rewrite Hmc.
  - rewrite column_length. cbn. exact Hmc.
Qed.

Lemma matmul_projection_spec (L : list T) :
  length L = n_mels m ->
  matmul_row (projection m) L = spec_project m L.
Proof.
  intros HL. destruct Hvalid as (_ & _ & _ & _ & _ & Hpr & Hpc & _).
  unfold matmul_row, spec_project. rewrite Hpc.
  apply map_ext_in. intros e He.
  rewrite dot_index with (n := n_mels m); [|exact HL|].
  - apply fold_left_ext_in. intros acc b Hb. apply in_seq in Hb.
    rewrite nth_column by lia. now rewrite Hpc.
  - now rewrite column_length.
Qed.

Lemma spec_lengths (frame : list T) :
  length (spec_windowed m frame) = n_fft m /\
  length (spec_dft m (spec_windowed m frame)) = n_fft m / 2 + 1 /\
  length (spec_power (spec_dft m (spec_windowed m frame))) = n_fft m / 2 + 1 /\
  length (spec_mel m (spec_power (spec_dft m (spec_windowed m frame)))) = n_mels m /\
  length (embed_spec_frame m frame) = embedding_size m.
Proof.
  unfold embed_spec_frame, spec_project, spec_log, spec_mel, spec_power, spec_dft,
    spec_windowed.
  repeat split; now rewrite ?length_map, length_seq.
Qed.

Lemma forward_row_spec (frame : list T) :
  length frame = n_fft m -> forward_row m frame = embed_spec_frame m frame.
Proof.
  intros Hf. destruct (spec_lengths frame) as (L1 & L2 & L3 & L4 & _).
  unfold forward_row, embed_spec_frame.
  rewrite (mul_rows_spec frame Hf), (rfft_row_spec _ L1), map_map.
  fold (spec_power (spec_dft m (spec_windowed m frame))).
  rewrite (matmul_mel_spec _ L3).
  fold (spec_log m (spec_mel m (spec_power (spec_dft m (spec_windowed m frame))))).
  apply matmul_projection_spec. unfold spec_log. now rewrite length_map.
Qed.
End SpecRefinement.

(** C2.  On a well-formed (N x n_fft) batch, [forward] returns the
    (N x embedding_size) batch whose rows are obtained from the frames by
    the six steps of the contract: window, one-sided DFT with [n_fft/2 + 1]
    bins, squared magnitude, mel reduction to [n_mels] bands, [log(x +
    epsilon)], projection.  The result depends on nothing but the window,
    the mel filter, the projection, epsilon and the input. *)
Theorem forward_is_embed_contract {T : Type} `{Scalar T}
    (m : Model) (N : nat) (d : list T) :
  valid_model m -> length d = N * n_fft m ->
  forward m (mkTensor [N; n_fft m] d)
  = Ret (mkTensor [N; embedding_size m]
           (concat (embed_spec m (chunks N (n_fft m) d)))) /\
  Forall (fun frame =>
            length (spec_dft m (spec_windowed m frame)) = n_fft m / 2 + 1 /\
            length (spec_mel m (spec_power (spec_dft m (spec_windowed m frame))))
            = n_mels m /\
            length (embed_spec_frame m frame) = embedding_size m)
         (chunks N (n_fft m) d) /\
  (forall (m' : Model) (x : tensor T),
      window m' = window m -> mel_scale m' = mel_scale m ->
      projection m' = projection m -> epsilon m' = epsilon m ->
      forward m' x = forward m x).
Proof.
  intros Hvalid Hd. split; [|split].
  - rewrite (forward_batch N d Hvalid Hd). do 3 f_equal.
    unfold embed_spec. apply map_ext_in. intros frame Hin.
    apply forward_row_spec; [exact Hvalid|].
    pose proof (chunks_all_length N (n_fft m) d ltac:(lia)) as Hall.
    rewrite Forall_forall in Hall. now apply Hall.
  - apply Forall_forall. intros frame _.
    destruct (spec_lengths m frame) as (_ & L2 & _ & L4 & L5). auto.
  - intros m' x Hw Hmel Hproj Heps. unfold forward.
    now rewrite Hw, Hmel, Hproj, Heps.
Qed.

(* ------------------------------------------------------------------ *)
(** ** Batching *)

Lemma Forall_firstn_of {A} (P : A -> Prop) (k : nat) (l : list A) :
  Forall P l -> Forall P (firstn k l).
Proof.
  intros Hl; revert k; induction Hl as [|x l Hx _ IH]; intros [|k]; simpl; auto.
Qed.

Lemma Forall_skipn_of {A} (P : A -> Prop) (k : nat) (l : list A) :
  Forall P l -> Forall P (skipn k l).
Proof.
  intros Hl; revert k; induction Hl as [|x l Hx Hl IH]; intros [|k]; simpl; auto.
Qed.

Lemma groups_aux_concat {A} (b fuel : nat) (l : list A) :
  1 <= b -> length l <= fuel -> concat (groups_aux fuel b l) = l.
Proof.
  intros Hb. revert l; induction fuel as [|fuel IH]; intros l Hl.
  - destruct l; [reflexivity|simpl in Hl; lia].
  - destruct l as [|x l]; [reflexivity|].
    cbn [groups_aux concat]. rewrite IH.
    + apply firstn_skipn.
    + rewrite length_skipn. cbn [length] in *. lia.
Qed.

Lemma groups_aux_Forall {A} (P : A -> Prop) (b fuel : nat) (l : list A) :
  Forall P l -> Forall (Forall P) (groups_aux fuel b l).
Proof.
  revert l; induction fuel as [|fuel IH]; intros l Hl; [constructor|].
  destruct l as [|x l]; [constructor|].
  cbn [groups_aux]. constructor.
  - now apply Forall_firstn_of.
  - apply IH. now apply Forall_skipn_of.
Qed.

Lemma groups_concat {A} (b : nat) (l : list A) :
  1 <= b -> concat (groups b l) = l.
Proof. intros Hb. now apply groups_aux_concat. Qed.

Lemma groups_nonempty {A} (b : nat) (l : list A) : l <> [] -> groups b l <> [].
Proof. destruct l; [congruence|]. discriminate. Qed.

Lemma sequence_map_ret {A B} (f : A -> outcome B) (g : A -> B) (l : list A) :
  (forall x, In x l -> f x = Ret (g x)) ->
  sequence (map f l) = Ret (map g l).
Proof.
  induction l as [|x l IH]; intros Hfg; [reflexivity|].
  cbn [map sequence]. rewrite Hfg by (left; reflexivity). cbn [bind].
  rewrite IH by (intros y Hy; apply Hfg; now right). reflexivity.
Qed.

Lemma cat_dim0_uniform {A} (ts : list (tensor A)) (rest : list nat) :
  ts <> [] ->
  (forall t, In t ts -> exists d0, shape t = d0 :: rest) ->
  cat_dim0 ts
  = Ret (mkTensor (list_sum (map (fun t => hd 0 (shape t)) ts) :: rest)
           (concat (map (@data A) ts))).
Proof.
  intros Hne Hsh. unfold cat_dim0.
  destruct ts as [|t0 ts']; [congruence|].
  destruct (Hsh t0 (or_introl eq_refl)) as (d0 & H0). rewrite H0.
  assert (Hall : forallb (fun t => match shape t with
                                   | [] => false
                                   | _ :: r => shape_eqb r rest
                                   end) (t0 :: ts') = true).
  { apply forallb_forall. intros t Ht. destruct (Hsh t Ht) as (d & ->).
    apply shape_eqb_refl. }
  now rewrite Hall.
Qed.

Lemma concat_map_concat {A B} (f : list A -> list B) (gs : list (list (list A))) :
  concat (map (fun g => concat (map f g)) gs) = concat (map f (concat gs)).
Proof.
  induction gs as [|g gs IH]; simpl; [reflexivity|].
  now rewrite map_app, concat_app, IH.
Qed.

Section Driver.
Context {T : Type} `{Scalar T}.

(** The driver with the state threading unfolded: the model changes only
    once framing and batching have succeeded. *)
Lemma get_audio_embedding_body_unfold (fuel : nat) (audio : tensor T) (h : Q)
    (bs : option Z) (m : Model) :
  get_audio_embedding_body fuel audio h bs m
  = match frame_audio tzero fuel audio (n_fft m) h
            RandomProjectionMelEmbedding_sample_rate with
    | Ret (frames, ts) =>
        match shape frames with
        | [ab; nf; _] =>
            match (fl <- flatten01 frames ;; data_loader fl bs) with
            | Ret loader =>
                (el <- sequence (map (forward (set_eval m)) loader) ;;
                 e <- cat_dim0 el ;;
                 e <- unflatten0 ab nf e ;;
                 Ret (e, ts), set_eval m)
            | Raise e => (Raise e, m)
            | OutOfFuel => (OutOfFuel, m)
            end
        | _ => (Raise (ValueError "not enough values to unpack"), m)
        end
    | Raise e => (Raise e, m)
    | OutOfFuel => (OutOfFuel, m)
    end.
Proof.
  unfold get_audio_embedding_body, cbind, self_, lift, eval_, cret.
  destruct (frame_audio _ _ _ _ _ _) as [[frames ts]| |]; try reflexivity.
  destruct (shape frames) as [|ab [|nf [|fs [|]]]]; try reflexivity.
  destruct (flatten01 frames) as [fl| |]; cbn [bind]; try reflexivity.
  destruct (data_loader fl bs) as [loader| |]; try reflexivity.
  destruct (sequence _) as [el| |]; cbn [bind]; try reflexivity.
  destruct (cat_dim0 el) as [e| |]; cbn [bind]; try reflexivity.
  destruct (unflatten0 ab nf e) as [e'| |]; reflexivity.
Qed.

(** Embedding the batches of a well-formed (M x n_fft) frame list gives the
    embeddings of the frames, in order, whatever the batch size. *)
Lemma embed_batches (m : Model) (M : nat) (d : list T) (b : Z) :
  valid_model m -> length d = M * n_fft m -> (0 < b)%Z -> 0 < M ->
  (loader <- data_loader (mkTensor [M; n_fft m] d) (Some b) ;;
   el <- sequence (map (forward m) loader) ;;
   cat_dim0 el)
  = Ret (mkTensor [M; embedding_size m]
           (concat (map (forward_row m) (chunks M (n_fft m) d)))).
Proof.
  intros Hvalid Hd Hb HM.
  unfold data_loader. cbn [shape data numel fold_right]. rewrite Nat.mul_1_r.
  destruct (Z.leb_spec b 0); [lia|]. cbn [bind].
  set (samples := chunks M (n_fft m) d).
  assert (Hsamples : Forall (fun r => length r = n_fft m) samples)
    by (apply chunks_all_length; lia).
  pose proof (groups_aux_Forall (Z.to_nat b) (length samples) Hsamples) as Hgroups.
  fold (groups (Z.to_nat b) samples) in Hgroups.
  rewrite map_map.
  rewrite (sequence_map_ret _
             (fun g => mkTensor [length g; embedding_size m]
                         (concat (map (forward_row m) g)))).
  - cbn [bind].
    rewrite (cat_dim0_uniform (rest := [embedding_size m])).
    + f_equal. f_equal.
      * f_equal. rewrite map_map. cbn [shape hd].
        rewrite <- length_concat, groups_concat by lia.
        apply chunks_length.
      * rewrite map_map. cbn [data].
        rewrite concat_map_concat, groups_concat by lia. reflexivity.
    + intros Hnil. apply map_eq_nil in Hnil. revert Hnil. apply groups_nonempty.
      unfold samples. destruct M; [lia|]. discriminate.
    + intros t Ht. apply in_map_iff in Ht. destruct Ht as (g & <- & _).
      eexists. reflexivity.
  - intros g Hg. rewrite Forall_forall in Hgroups.
    apply (forward_rows Hvalid eq_refl (Hgroups g Hg)).
Qed.

(** The driver on a 2-D batch, for any fuel and any positive batch size. *)
Lemma get_audio_embedding_2d (fuel : nat) (audio : tensor T) (m : Model) (h : Q)
    (b : Z) (R Ns F : nat) :
  shape audio = [R; Ns] -> wf audio -> valid_model m -> (0 < b)%Z ->
  frame_count (n_fft m) h RandomProjectionMelEmbedding_sample_rate
              (padded_length Ns (n_fft m)) F ->
  get_audio_embedding fuel audio (Instance m) h (Some b)
  = if F <=? fuel then
      (if R =? 0
       then Raise (RuntimeError "torch.cat(): expected a non-empty list of Tensors")
       else Ret (mkTensor [R; F; embedding_size m]
                   (concat (map (forward_row m)
                              (chunks (R * F) (n_fft m)
                                 (data (frames_tensor tzero audio R Ns (n_fft m) h
                                          RandomProjectionMelEmbedding_sample_rate F))))),
                 tensor_of_list (map (frame_stamp h) (seq 0 F))),
       Instance (set_eval m))
    else (OutOfFuel, Instance m).
Proof.
  intros Hshape Hwf Hvalid Hb HF.
  unfold get_audio_embedding, ndim. rewrite Hshape. cbn [length Nat.eqb negb].
  rewrite get_audio_embedding_body_unfold.
  rewrite (frame_audio_2d tzero Hshape Hwf fuel HF).
  destruct (F <=? fuel); [|reflexivity].
  pose proof (frames_tensor_wf tzero Hshape Hwf HF) as Hfwf.
  unfold wf in Hfwf. cbn [frames_tensor shape data numel fold_right] in Hfwf.
  cbn [frames_tensor shape flatten01 bind data].
  destruct R as [|R'].
  - cbn. destruct (Z.leb_spec b 0); [lia|]. reflexivity.
  - cbn [Nat.eqb].
    set (d := concat _) in *.
    assert (Hd : length d = (S R' * F) * n_fft m) by (rewrite Hfwf; lia).
    assert (HM : 0 < S R' * F) by (destruct HF; nia).
    pose proof (@embed_batches (set_eval m) (S R' * F) d b Hvalid Hd Hb HM) as Hemb.
    change (n_fft (set_eval m)) with (n_fft m) in Hemb.
    change (embedding_size (set_eval m)) with (embedding_size m) in Hemb.
    destruct (data_loader _ _) as [loader| |]; cbn [bind] in *; try discriminate.
    destruct (sequence _) as [el| |]; cbn [bind] in *; try discriminate.
    rewrite Hemb. cbn [bind]. unfold unflatten0. cbn [shape data].
    rewrite Nat.eqb_refl. reflexivity.
Qed.

(** Before the frame count is reached, and with a rate that never stops,
    the driver has not returned. *)
Lemma get_audio_embedding_2d_diverges (fuel : nat) (audio : tensor T) (m : Model)
    (h : Q) (bs : option Z) (R Ns : nat) :
  shape audio = [R; Ns] ->
  (rate_sign RandomProjectionMelEmbedding_sample_rate h <= 0)%Z ->
  get_audio_embedding fuel audio (Instance m) h bs = (OutOfFuel, Instance m).
Proof.
  intros Hshape Hs.
  unfold get_audio_embedding, ndim. rewrite Hshape. cbn [length Nat.eqb negb].
  rewrite get_audio_embedding_body_unfold.
  now rewrite (frame_audio_2d_diverges tzero audio (n_fft m) h _ Hshape fuel Hs).
Qed.
End Driver.

(* ------------------------------------------------------------------ *)
(** ** The batched driver *)

(** C1.  For a 2-D batch and a valid model, the outcome of
    [get_audio_embedding] (embeddings, timestamps, errors and all) is the
    same for any two positive batch sizes; and with at least one recording
    and a positive hop the call returns the timestamps of the Framer and an
    (R x F x embedding_size) tensor whose entry [[r, f]] is what [forward]
    returns on frame [(r, f)] alone. *)
Theorem get_audio_embedding_single_frame_equivalence {T : Type} `{Scalar T}
    (audio : tensor T) (m : @Model T) (h : Q) (R Ns : nat) :
  shape audio = [R; Ns] -> wf audio -> valid_model m ->
  (forall fuel b1 b2, (0 < b1)%Z -> (0 < b2)%Z ->
     get_audio_embedding fuel audio (Instance m) h (Some b1)
     = get_audio_embedding fuel audio (Instance m) h (Some b2)) /\
  (0 < R -> (0 < h)%Q ->
   exists fuel0 F frames ts,
     shape frames = [R; F; n_fft m] /\ 1 <= F /\
     (forall fuel, fuel0 <= fuel ->
        frame_audio tzero fuel audio (n_fft m) h
                    RandomProjectionMelEmbedding_sample_rate
        = Ret (frames, ts)) /\
     forall b fuel, (0 < b)%Z -> fuel0 <= fuel ->
       exists emb m',
         get_audio_embedding fuel audio (Instance m) h (Some b)
         = (Ret (emb, ts), Instance m') /\
         shape emb = [R; F; embedding_size m] /\
         forall r f, r < R -> f < F ->
           forward m (mkTensor [1; n_fft m] (at2 frames r f))
           = Ret (mkTensor [1; embedding_size m] (at2 emb r f))).
Proof.
  intros Hshape Hwf Hvalid. split.
  - intros fuel b1 b2 Hb1 Hb2.
    destruct (Z.lt_ge_cases 0 (rate_sign RandomProjectionMelEmbedding_sample_rate h))
      as [Hpos|Hneg].
    + destruct (frame_count_exists Ns (n_fft m) h _ Hpos) as (F & HF).
      rewrite (get_audio_embedding_2d fuel Hshape Hwf Hvalid Hb1 HF).
      now rewrite (get_audio_embedding_2d fuel Hshape Hwf Hvalid Hb2 HF).
    + now rewrite !(get_audio_embedding_2d_diverges fuel audio m h _ Hshape Hneg).
  - intros HR Hh.
    assert (Hpos : (0 < rate_sign RandomProjectionMelEmbedding_sample_rate h)%Z)
      by (apply rate_sign_pos; [reflexivity|exact Hh]).
    destruct (frame_count_exists Ns (n_fft m) h _ Hpos) as (F & HF).
    set (frames := frames_tensor tzero audio R Ns (n_fft m) h
                     RandomProjectionMelEmbedding_sample_rate F).
    exists F, F, frames, (tensor_of_list (map (frame_stamp h) (seq 0 F))).
    split; [reflexivity|]. split; [apply HF|]. split.
    { intros fuel Hfuel. rewrite (frame_audio_2d tzero Hshape Hwf fuel HF).
      destruct (Nat.leb_spec F fuel); [reflexivity|lia]. }
    intros b fuel Hb Hfuel.
    rewrite (get_audio_embedding_2d fuel Hshape Hwf Hvalid Hb HF).
    destruct (Nat.leb_spec F fuel); [|lia].
    destruct (Nat.eqb_spec R 0); [lia|].
    eexists. eexists. split; [reflexivity|]. split; [reflexivity|].
    intros r f Hr Hf.
    pose proof (frames_tensor_wf tzero Hshape Hwf HF) as Hfwf.
    unfold wf in Hfwf. fold frames in Hfwf.
    assert (Hd : length (data frames) = (R * F) * n_fft m).
    { rewrite Hfwf. unfold frames. cbn. lia. }
    assert (Hidx : r * F + f < R * F) by nia.
    assert (Hrow : at2 frames r f = row_at (n_fft m) (r * F + f) (data frames))
      by reflexivity.
    assert (Hlen : length (at2 frames r f) = n_fft m).
    { rewrite Hrow. apply row_at_length. rewrite Hd. nia. }
    rewrite (forward_batch 1 (at2 frames r f) Hvalid) by (rewrite Hlen; lia).
    do 2 f_equal. cbn [chunks map concat].
    rewrite app_nil_r, firstn_all2 by lia.
    unfold at2 at 2. cbn [shape data].
    rewrite row_at_concat.
    + rewrite (nth_indep _ [] (forward_row m []))
        by (rewrite length_map, chunks_length; exact Hidx).
      rewrite (map_nth (forward_row m)), nth_chunks by exact Hidx.
      now rewrite Hrow.
    + apply Forall_length_map. intros row _. rewrite forward_row_length.
      apply Hvalid.
    + now rewrite length_map, chunks_length.
Qed.

(** C5 (as amended).  A tensor that is not 2-D is rejected with InvalidInput
    by the driver, whatever the other arguments, before [frame_audio] is
    reached: no fuel is needed, and the model object is returned as it
    was. *)
Theorem non_2d_audio_rejected_by_driver {T : Type} `{Scalar T}
    (audio : tensor T) (model : pyobj) (fuel : nat) (h : Q) (bs : option Z) :
  ndim audio <> 2 ->
  get_audio_embedding fuel audio model h bs = (Raise InvalidInput, model).
Proof.
  intros Hnd. unfold get_audio_embedding.
  destruct (Nat.eqb_spec (ndim audio) 2); [contradiction|reflexivity].
Qed.

(** C5 (as stated) fails: [frame_audio] has no rank check.  On a 3-D tensor
    it returns, and on a 1-D tensor it fails with an IndexError. *)
Lemma frame_audio_has_no_rank_check :
  let audio3 := mkTensor [2; 2; 3]
                  [1 # 2; 0; 0; 0; 1 # 4; 0; 0; 0; 1 # 2; 0; 0; 0]%Q in
  let audio1 := mkTensor [3] [1 # 2; 0; 1 # 4]%Q in
  ndim audio3 <> 2 /\
  frame_audio 0%Q 5 audio3 4 (1 # 2) 44100
  = Ret (mkTensor [2; 1; 2; 7]
           [0; 0; 1 # 2; 0; 0; 0; 0;  0; 0; 0; 1 # 4; 0; 0; 0;
            0; 0; 0; 0; 1 # 2; 0; 0;  0; 0; 0; 0; 0; 0; 0]%Q,
         mkTensor [1] [0 * (1 # 2)]%Q) /\
  frame_audio 0%Q 5 audio3 4 (1 # 2) 44100 <> Raise InvalidInput /\
  ndim audio1 <> 2 /\
  frame_audio 0%Q 5 audio1 4 (1 # 2) 44100
  = Raise (IndexError "tuple index out of range").
Proof. cbv zeta. repeat split; try discriminate; reflexivity. Qed.

(** C6.  A tensor whose rank is not 2 makes the driver raise InvalidInput,
    and, for a 2-D tensor, an object that is not a
    [RandomProjectionMelEmbedding] makes it raise TypeMismatch; in both
    cases for any fuel (none is needed: the framing loop is not entered),
    any hop size and any batch size, and the model object is returned
    unchanged. *)
Theorem get_audio_embedding_validation {T : Type} `{Scalar T}
    (audio : tensor T) :
  (ndim audio <> 2 ->
   forall (model : pyobj) fuel h bs,
     get_audio_embedding fuel audio model h bs = (Raise InvalidInput, model)) /\
  (ndim audio = 2 ->
   forall class_name fuel h bs,
     get_audio_embedding fuel audio (@Foreign T class_name) h bs
     = (Raise TypeMismatch, Foreign class_name)).
Proof.
  split.
  - intros Hnd model fuel h bs. unfold get_audio_embedding.
    destruct (Nat.eqb_spec (ndim audio) 2); [contradiction|reflexivity].
  - intros Hnd class_name fuel h bs. unfold get_audio_embedding.
    now rewrite Hnd.
Qed.

(** C7 (what the code does).  The driver frames at the sample rate of the
    class, 44100, whatever [sample_rate] the model object declares: for a
    model declaring 16000, a hop of 1/16000 s and a recording of three
    samples it returns 2 timestamps, where framing at the declared rate
    gives 4. *)
Theorem driver_frames_at_class_sample_rate {T : Type} `{Scalar T}
    (x0 x1 x2 w0 w1 a0 a1 p0 eps : T) :
  let m := mkModel 16000 1 2 1 0 eps [w0; w1]
                   (mkMatrix 1 2 [a0; a1]) (mkMatrix 1 1 [p0]) true in
  let audio := mkTensor [1; 3] [x0; x1; x2] in
  let h := (1 # 16000)%Q in
  valid_model m /\
  (exists emb model',
      get_audio_embedding 10 audio (Instance m) h (Some 512%Z)
      = (Ret (emb, mkTensor [2] [0 * h; 1 * h]%Q), model')) /\
  (exists frames,
      frame_audio tzero 10 audio (n_fft m) h RandomProjectionMelEmbedding_sample_rate
      = Ret (frames, mkTensor [2] [0 * h; 1 * h]%Q)) /\
  (exists frames,
      frame_audio tzero 10 audio (n_fft m) h (sample_rate m)
      = Ret (frames, mkTensor [4] [0 * h; 1 * h; 2 * h; 3 * h]%Q)).
Proof.
  cbv zeta. split; [|split; [|split]].
  - unfold valid_model, wf_matrix. cbn. repeat split; lia.
  - eexists. eexists. vm_compute. reflexivity.
  - eexists. vm_compute. reflexivity.
  - eexists. vm_compute. reflexivity.
Qed.



(* ------------------------------------------------------------------ *)
(** ** A silent frame *)

Lemma map_const_seq {B} (c : B) (len : nat) (g : nat -> B) :
  (forall i, i < len -> g i = c) -> map g (seq 0 len) = repeat c len.
Proof.
  intros Hg. apply nth_ext with (d := g 0) (d' := c).
  - now rewrite length_map, length_seq, repeat_length.
  - intros i Hi. rewrite length_map, length_seq in Hi.
    rewrite (map_nth g), seq_nth, nth_repeat by exact Hi. now apply Hg.
Qed.

Section Silence.
Context {T : Type} `{Scalar T}.

(** The laws of zero the argument uses. *)
Hypothesis tmul_zero_l : forall x : T, tmul tzero x = tzero.
Hypothesis tadd_zero_zero : tadd tzero tzero = tzero.
Hypothesis tsqrt_zero : tsqrt tzero = tzero.

Lemma mul_rows_zero (n : nat) (w : list T) :
  length w = n -> mul_rows (repeat tzero n) w = repeat tzero n.
Proof.
  revert w; induction n as [|n IH]; intros [|x w] Hw; simpl in Hw; try lia;
    [reflexivity|].
  unfold mul_rows in *. cbn [repeat combine map fst snd].
  rewrite tmul_zero_l, IH by lia. reflexivity.
Qed.

Lemma dft_bin_zero (k n : nat) (idx : list nat) (len : nat) :
  fold_left (fun acc p => cadd acc (cscale (snd p) (twiddle n k (fst p))))
            (combine idx (repeat tzero len)) (tzero, tzero)
  = (tzero, tzero).
Proof.
  revert len; induction idx as [|j idx IH]; intros [|len]; try reflexivity.
  cbn [repeat combine fold_left fst snd]. unfold cadd, cscale. cbn [fst snd].
  rewrite !tmul_zero_l, tadd_zero_zero. apply IH.
Qed.

Lemma rfft_row_zero (n : nat) :
  rfft_row (repeat tzero n) = repeat (tzero, tzero) (n / 2 + 1).
Proof.
  unfold rfft_row. rewrite repeat_length.
  apply map_const_seq. intros k _. apply dft_bin_zero.
Qed.

Lemma power_zero : pow2 (cabs (tzero, tzero)) = tzero.
Proof.
  unfold pow2, cabs. cbn [fst snd].
  now rewrite !tmul_zero_l, tadd_zero_zero, tsqrt_zero, tmul_zero_l.
Qed.

Lemma dot_zero_l (v : list T) (len : nat) : dot (repeat tzero len) v = tzero.
Proof.
  unfold dot. revert v; induction len as [|len IH]; intros [|x v]; try reflexivity.
  cbn [repeat combine fold_left fst snd].
  rewrite tmul_zero_l, tadd_zero_zero. apply IH.
Qed.

Lemma matmul_row_zero (w : matrix) (len : nat) :
  matmul_row w (repeat tzero len) = repeat tzero (ncols w).
Proof.
  unfold matmul_row. apply map_const_seq. intros c _. apply dot_zero_l.
Qed.

(** The mel reduction of a silent frame is zero, and its embedding is the
    projection of the constant row [log(0 + epsilon)]. *)
Lemma forward_silent (m : @Model T) :
  valid_model m ->
  mel_reduction m (mkTensor [1; n_fft m] (repeat tzero (n_fft m)))
  = Ret (mkTensor [1; n_mels m] (repeat tzero (n_mels m))) /\
  forward m (mkTensor [1; n_fft m] (repeat tzero (n_fft m)))
  = Ret (mkTensor [1; embedding_size m]
           (spec_project m (repeat (tlog (tadd tzero (epsilon m))) (n_mels m)))).
Proof.
  intros Hvalid.
  assert (Hrows : Forall (fun r : list T => length r = n_fft m) [repeat tzero (n_fft m)])
    by (constructor; [apply repeat_length|constructor]).
  assert (Hmel : matmul_row (transpose (mel_scale m))
                   (map pow2 (map cabs (rfft_row (mul_rows (repeat tzero (n_fft m))
                                                    (window m)))))
                 = repeat tzero (n_mels m)).
  { destruct Hvalid as (_ & Hw & Hmr & _).
    rewrite (mul_rows_zero _ Hw), rfft_row_zero, !map_repeat, power_zero.
    rewrite matmul_row_zero. cbn. now rewrite Hmr. }
  split.
  - pose proof (@mel_reduction_rows _ _ m 1 [repeat tzero (n_fft m)] Hvalid eq_refl Hrows)
      as Hred.
    cbn [concat map] in Hred. rewrite !app_nil_r in Hred.
    rewrite Hred. now rewrite Hmel.
  - pose proof (@forward_rows _ _ m 1 [repeat tzero (n_fft m)] Hvalid eq_refl Hrows)
      as Hfwd.
    cbn [concat map] in Hfwd. rewrite !app_nil_r in Hfwd.
    rewrite Hfwd. do 2 f_equal. unfold forward_row.
    rewrite Hmel, map_repeat.
    apply (matmul_projection_spec Hvalid). apply repeat_length.
Qed.
End Silence.

(** C9.  In real arithmetic, for a valid model with the class's epsilon
    (1e-4), [forward] returns on a silent frame: the mel reduction is zero,
    the logarithm is taken of [0 + 1/10000], a positive number, and the
    embedding is the projection of the constant row [ln(0 + 1/10000)],
    entry [e] being the sum over the bands [b] of [ln(0 + 1/10000) *
    projection[b, e]]: a vector of [embedding_size] real numbers fixed by
    the model. *)
Theorem forward_silent_frame (m : @Model R) :
  valid_model m ->
  epsilon m = RandomProjectionMelEmbedding_epsilon ->
  let silent := mkTensor [1; n_fft m] (repeat 0%R (n_fft m)) in
  mel_reduction m silent = Ret (mkTensor [1; n_mels m] (repeat 0%R (n_mels m))) /\
  epsilon m = (1 / 10000)%R /\
  (0 < 0 + epsilon m)%R /\
  forward m silent
  = Ret (mkTensor [1; embedding_size m]
           (map (fun e =>
                   fold_left (fun acc b =>
                                (acc + ln (0 + 1 / 10000)
                                       * nth (b * embedding_size m + e)
                                             (entries (projection m)) 0)%R)
                             (seq 0 (n_mels m)) 0%R)
                (seq 0 (embedding_size m)))) /\
  length (map (fun e =>
                 fold_left (fun acc b =>
                              (acc + ln (0 + 1 / 10000)
                                     * nth (b * embedding_size m + e)
                                           (entries (projection m)) 0)%R)
                           (seq 0 (n_mels m)) 0%R)
              (seq 0 (embedding_size m))) = embedding_size m.
Proof.
  intros Hvalid Heps. cbv zeta.
  assert (Heps' : epsilon m = (1 / 10000)%R).
  { rewrite Heps. unfold RandomProjectionMelEmbedding_epsilon. cbn [tlit RealScalar].
    unfold Q2R. cbn [Qnum Qden]. lra. }
  destruct (@forward_silent R RealScalar Rmult_0_l (Rplus_0_l 0) sqrt_0 m Hvalid)
    as (Hmel & Hfwd).
  split; [exact Hmel|]. split; [exact Heps'|]. split; [rewrite Heps'; lra|].
  split; [|now rewrite length_map, length_seq].
  change (@tzero R RealScalar) with 0%R in Hfwd. rewrite Hfwd. do 2 f_equal.
  unfold spec_project. apply map_ext. intros e.
  apply fold_left_ext_in. intros acc b Hb. apply in_seq in Hb.
  rewrite nth_repeat_lt by lia. cbn [tadd tmul tlog RealScalar tzero].
  now rewrite Heps'.
Qed.

(* ------------------------------------------------------------------ *)
(** ** Instances on the example batch and model *)

Lemma get_audio_embedding_single_frame_equivalence_witness :
  shape example_audio = [2; 3] /\ wf example_audio /\ valid_model example_model /\
  forall fuel b1 b2, (0 < b1)%Z -> (0 < b2)%Z ->
    get_audio_embedding fuel example_audio (Instance example_model) (1 # 4) (Some b1)
    = get_audio_embedding fuel example_audio (Instance example_model) (1 # 4) (Some b2).
Proof.
  assert (Hvalid : valid_model example_model).
  { unfold valid_model, wf_matrix. cbn. repeat split; lia. }
  split; [reflexivity|]. split; [reflexivity|]. split; [exact Hvalid|].
  exact (proj1 (@get_audio_embedding_single_frame_equivalence R RealScalar
                  example_audio example_model (1 # 4) 2 3 eq_refl eq_refl Hvalid)).
Defined.

Lemma forward_is_embed_contract_witness :
  valid_model example_model /\
  length [0; 0; 1 / 2; -1 / 2]%R = 1 * n_fft example_model /\
  forward example_model (mkTensor [1; 4] [0; 0; 1 / 2; -1 / 2]%R)
  = Ret (mkTensor [1; 3]
           (concat (embed_spec example_model [[0; 0; 1 / 2; -1 / 2]%R]))).
Proof.
  assert (Hvalid : valid_model example_model).
  { unfold valid_model, wf_matrix. cbn. repeat split; lia. }
  split; [exact Hvalid|]. split; [reflexivity|].
  exact (proj1 (@forward_is_embed_contract R RealScalar example_model 1
                  [0; 0; 1 / 2; -1 / 2]%R Hvalid eq_refl)).
Defined.



Lemma frame_audio_terminates_iff_witness :
  shape example_audio = [2; 3] /\ wf example_audio /\ (0 < 44100)%Z /\
  ((exists fuel, frame_audio 0%R fuel example_audio 4 (1 # 4) 44100 <> OutOfFuel)
   <-> (0 < 1 # 4)%Q) /\
  ((1 # 4 <= 0)%Q ->
   (forall k, 1 <= k ->
      (frame_start (1 # 4) 44100 k + Z.of_nat 4 <= Z.of_nat (3 + 4))%Z) /\
   (forall fuel, frame_audio 0%R fuel example_audio 4 (1 # 4) 44100 = OutOfFuel)).
Proof.
  split; [reflexivity|]. split; [reflexivity|]. split; [reflexivity|].
  exact (@frame_audio_terminates_iff R 0%R example_audio 2 3 4 (1 # 4) 44100
           eq_refl eq_refl eq_refl).
Defined.

Lemma non_2d_audio_rejected_by_driver_witness :
  ndim (mkTensor [3] [0; 1 / 2; -1 / 2]%R) <> 2 /\
  get_audio_embedding 0 (mkTensor [3] [0; 1 / 2; -1 / 2]%R)
                      (Instance example_model) (1 # 4) (Some 512%Z)
  = (Raise InvalidInput, Instance example_model).
Proof.
  assert (Hnd : ndim (mkTensor [3] [0; 1 / 2; -1 / 2]%R) <> 2) by (cbn; lia).
  split; [exact Hnd|].
  exact (@non_2d_audio_rejected_by_driver R RealScalar _ (Instance example_model)
           0 (1 # 4) (Some 512%Z) Hnd).
Defined.

Lemma get_audio_embedding_validation_witness :
  (ndim (mkTensor [1; 2; 3] [0; 0; 0; 0; 0; 0]%R) <> 2 /\
   get_audio_embedding 0 (mkTensor [1; 2; 3] [0; 0; 0; 0; 0; 0]%R)
                       (Instance example_model) 0 None
   = (Raise InvalidInput, Instance example_model)) /\
  (ndim example_audio = 2 /\
   get_audio_embedding 0 example_audio (@Foreign R "Linear") 0 None
   = (Raise TypeMismatch, Foreign "Linear")).
Proof.
  assert (Hnd : ndim (mkTensor [1; 2; 3] [0; 0; 0; 0; 0; 0]%R) <> 2) by (cbn; lia).
  split; (split; [try exact Hnd; reflexivity|]).
  - exact (proj1 (@get_audio_embedding_validation R RealScalar _) Hnd
             (Instance example_model) 0 0%Q None).
  - exact (proj2 (@get_audio_embedding_validation R RealScalar example_audio) eq_refl
             "Linear" 0 0%Q None).
Defined.

Lemma forward_silent_frame_witness :
  valid_model example_model /\
  epsilon example_model = RandomProjectionMelEmbedding_epsilon /\
  mel_reduction example_model (mkTensor [1; 4] (repeat 0%R 4))
  = Ret (mkTensor [1; 2] (repeat 0%R 2)) /\
  (0 < 0 + epsilon example_model)%R.
Proof.
  assert (Hvalid : valid_model example_model).
  { unfold valid_model, wf_matrix. cbn. repeat split; lia. }
  split; [exact Hvalid|]. split; [reflexivity|].
  pose proof (forward_silent_frame Hvalid eq_refl) as Hs. cbv zeta in Hs.
  split; [exact (proj1 Hs)|exact (proj1 (proj2 (proj2 Hs)))].
Defined.

(* ------------------------------------------------------------------ *)
(** * Further properties of the code *)

(** ** Construction and loading of the model *)

Section ConstructionProps.
Context {T : Type} `{Scalar T} `{ScalarDiv T}.
Variable ext : @Externals T.
Hypothesis Hext : externals_shapes ext.

(** The buffers the constructor registers have the shapes [forward]
    relies on. *)
Lemma init_valid : valid_model (RandomProjectionMelEmbedding_init ext).
Proof.
  destruct Hext as (Hhann & Hmel & Hrand).
  unfold valid_model, RandomProjectionMelEmbedding_init, RandomProjectionMelEmbedding_new.
  cbn [n_fft window mel_scale projection n_mels embedding_size].
  destruct (Hmel RandomProjectionMelEmbedding_sample_rate
                 RandomProjectionMelEmbedding_n_fft
                 RandomProjectionMelEmbedding_n_mels) as (Hmr & Hmc & Hmwf).
  destruct (Hrand RandomProjectionMelEmbedding_seed
                  RandomProjectionMelEmbedding_n_mels
                  RandomProjectionMelEmbedding_embedding_size) as (Hpr & Hpc & Hpwf).
  repeat split.
  - unfold RandomProjectionMelEmbedding_n_fft. lia.
  - apply Hhann.
  - exact Hmr.
  - rewrite Hmc. apply Nat.add_comm.
  - exact Hmwf.
  - exact Hpr.
  - exact Hpc.
  - unfold wf_matrix, matrix_div in *. cbn [entries nrows ncols].
    now rewrite length_map.
Qed.
End ConstructionProps.


(** X2.  A freshly constructed model works in the driver: for a non-empty
    2-D batch, a positive hop and a positive batch size the call returns,
    with enough fuel, an (R x F x 4096) tensor and F timestamps, leaves the
    model in evaluation mode, and the frames are those of the sample rate
    the model itself declares. *)
Theorem fresh_model_embeds {T : Type} `{Scalar T} `{ScalarDiv T}
    (ext : @Externals T) (audio : tensor T) (R Ns : nat) (h : Q) (b : Z) :
  externals_shapes ext ->
  shape audio = [R; Ns] -> wf audio -> 0 < R -> (0 < h)%Q -> (0 < b)%Z ->
  let m := RandomProjectionMelEmbedding_init ext in
  exists fuel0 F frames emb ts,
    1 <= F /\ shape emb = [R; F; timestamp_embedding_size m] /\ shape ts = [F] /\
    forall fuel, fuel0 <= fuel ->
      get_audio_embedding fuel audio (Instance m) h (Some b)
      = (Ret (emb, ts), Instance (set_eval m)) /\
      frame_audio tzero fuel audio (n_fft m) h (sample_rate m) = Ret (frames, ts).
Proof.
  intros Hext Hshape Hwf HR Hh Hb m.
  pose proof (init_valid Hext) as Hvalid. fold m in Hvalid.
  assert (Hpos : (0 < rate_sign RandomProjectionMelEmbedding_sample_rate h)%Z)
    by (apply rate_sign_pos; [reflexivity|exact Hh]).
  destruct (frame_count_exists Ns (n_fft m) h _ Hpos) as (F & HF).
  exists F, F. eexists. eexists. eexists.
  split; [apply HF|]. split; [|split]; cycle 2.
  - intros fuel Hfuel.
    rewrite (get_audio_embedding_2d fuel Hshape Hwf Hvalid Hb HF).
    change (sample_rate m) with RandomProjectionMelEmbedding_sample_rate.
    rewrite (frame_audio_2d tzero Hshape Hwf fuel HF).
    destruct (Nat.leb_spec F fuel); [|lia].
    destruct (Nat.eqb_spec R 0); [lia|].
    split; reflexivity.
  - reflexivity.
  - cbn [tensor_of_list shape]. now rewrite length_map, length_seq.
Qed.

(** ** The scale of the projection, in real arithmetic *)

Lemma sqrt_n_mels : sqrt (INR RandomProjectionMelEmbedding_n_mels) = 16%R.
Proof.
  rewrite INR_IZR_INZ.
  change (Z.of_nat RandomProjectionMelEmbedding_n_mels) with 256%Z.
  replace 256%R with (16 * 16)%R by lra.
  apply sqrt_square. lra.
Qed.

Lemma init_projection_scaled (ext : @Externals R) :
  (forall seed rows cols,
      Forall (fun x => 0 <= x < 1)%R (entries (torch_rand ext seed rows cols))) ->
  Forall (fun p => 0 <= p < 1 / 16)%R
         (entries (projection (RandomProjectionMelEmbedding_init ext))).
Proof.
  intros Hrand.
  unfold RandomProjectionMelEmbedding_init, RandomProjectionMelEmbedding_new, matrix_div.
  cbn [projection entries].
  apply Forall_map. eapply Forall_impl; [|apply Hrand].
  intros x Hx. cbn [tdiv tsqrt tof_nat RealScalar RealScalarDiv].
  rewrite sqrt_n_mels. lra.
Qed.

(** X3.  With [torch.rand] drawing from [0, 1), every entry of the
    projection of a freshly constructed model lies in [0, 1/16): the draw
    divided by [sqrt(256)]; and the matrix keeps the (256 x 4096) shape of
    the draw. *)
Theorem projection_entries_scaled (ext : @Externals R) :
  externals_shapes ext ->
  (forall seed rows cols,
      Forall (fun x => 0 <= x < 1)%R (entries (torch_rand ext seed rows cols))) ->
  let proj := projection (RandomProjectionMelEmbedding_init ext) in
  nrows proj = 256 /\ ncols proj = 4096 /\ wf_matrix proj /\
  Forall (fun p => 0 <= p < 1 / 16)%R (entries proj).
Proof.
  intros Hext Hrand. cbv zeta.
  destruct (init_valid Hext) as (_ & _ & _ & _ & _ & Hpr & Hpc & Hpwf).
  repeat split; try assumption.
  now apply init_projection_scaled.
Qed.

Lemma fold_sum_bounds (t : nat -> R) (lo : R) (l : list nat) (acc : R) :
  (forall b, In b l -> lo <= t b <= 0)%R ->
  (acc + INR (length l) * lo <= fold_left (fun a b => a + t b) l acc <= acc)%R.
Proof.
  revert acc; induction l as [|b l IH]; intros acc Ht.
  - cbn [fold_left length INR]. lra.
  - cbn [fold_left]. rewrite length_cons, S_INR.
    pose proof (Ht b (or_introl eq_refl)) as Hb.
    assert (Hl : forall b', In b' l -> (lo <= t b' <= 0)%R)
      by (intros b' Hb'; apply Ht; now right).
    pose proof (IH (acc + t b)%R Hl) as Hrec. lra.
Qed.

Lemma ln_epsilon_negative : (ln (0 + 1 / 10000) < 0)%R.
Proof.
  pose proof (ln_increasing (0 + 1 / 10000) 1 ltac:(lra) ltac:(lra)) as Hl.
  now rewrite ln_1 in Hl.
Qed.

(** X4.  In real arithmetic, with [torch.rand] drawing from [0, 1), a
    freshly constructed model maps a silent frame to a vector of 4096
    numbers, each between [16 * ln(1/10000)] and 0. *)
Theorem fresh_model_silence_bounds (ext : @Externals R) :
  externals_shapes ext ->
  (forall seed rows cols,
      Forall (fun x => 0 <= x < 1)%R (entries (torch_rand ext seed rows cols))) ->
  exists v,
    forward (RandomProjectionMelEmbedding_init ext)
            (mkTensor [1; 4096] (repeat 0%R 4096))
    = Ret (mkTensor [1; 4096] v) /\
    length v = 4096 /\
    Forall (fun x => 16 * ln (1 / 10000) <= x <= 0)%R v.
Proof.
  intros Hext Hrand.
  set (m := RandomProjectionMelEmbedding_init ext).
  pose proof (init_valid Hext) as Hvalid. fold m in Hvalid.
  destruct (@forward_silent R RealScalar Rmult_0_l (Rplus_0_l 0) sqrt_0 m Hvalid)
    as (_ & Hfwd).
  eexists. split; [exact Hfwd|].
  unfold spec_project. split; [now rewrite length_map, length_seq|].
  apply Forall_map, Forall_forall. intros e _.
  pose proof (init_projection_scaled ext Hrand) as Hproj. fold m in Hproj.
  rewrite Forall_forall in Hproj.
  assert (Hentry : forall i, (0 <= nth i (entries (projection m)) 0 < 1 / 16)%R).
  { intros i. destruct (nth_in_or_default i (entries (projection m)) 0%R) as [Hin| ->].
    - now apply Hproj.
    - lra. }
  pose proof ln_epsilon_negative as Hln.
  pose proof (@fold_sum_bounds
                (fun b => tmul (nth b (repeat (tlog (tadd tzero (epsilon m))) (n_mels m)) tzero)
                               (nth (b * embedding_size m + e) (entries (projection m)) tzero))
                (ln (0 + 1 / 10000) * (1 / 16))%R
                (seq 0 (n_mels m)) 0%R) as Hsum.
  cbn [tmul tadd tlog tzero RealScalar] in *.
  rewrite length_seq in Hsum.
  assert (Hn : INR (n_mels m) = 256%R).
  { rewrite INR_IZR_INZ. change (Z.of_nat (n_mels m)) with 256%Z. reflexivity. }
  rewrite Hn in Hsum.
  assert (Heps : epsilon m = (1 / 10000)%R).
  { change (epsilon m) with (Q2R (1 # 10000)). unfold Q2R. cbn [Qnum Qden]. lra. }
  replace (ln (1 / 10000)) with (ln (0 + 1 / 10000)) by (f_equal; lra).
  assert (Hterms : forall b, In b (seq 0 (n_mels m)) ->
             (ln (0 + 1 / 10000) * (1 / 16)
              <= nth b (repeat (ln (0 + epsilon m)) (n_mels m)) 0
                 * nth (b * embedding_size m + e) (entries (projection m)) 0
              <= 0)%R).
  { intros b Hb. apply in_seq in Hb. rewrite nth_repeat_lt by lia. rewrite Heps.
    specialize (Hentry (b * embedding_size m + e)). nra. }
  specialize (Hsum Hterms). lra.
Qed.

(* ------------------------------------------------------------------ *)
(** ** Edge cases of the driver *)

Section DriverEdges.
Context {T : Type} `{Scalar T}.

(** The driver on a 2-D batch, once framing is known to yield [F] frames:
    the rest of the call is run on the frame tensor. *)
Lemma get_audio_embedding_framed (fuel : nat) (audio : tensor T) (m : @Model T)
    (h : Q) (bs : option Z) (R Ns F : nat) :
  shape audio = [R; Ns] -> wf audio ->
  frame_count (n_fft m) h RandomProjectionMelEmbedding_sample_rate
              (padded_length Ns (n_fft m)) F ->
  get_audio_embedding fuel audio (Instance m) h bs
  = if F <=? fuel then
      match data_loader
              (mkTensor [R * F; n_fft m]
                 (data (frames_tensor tzero audio R Ns (n_fft m) h
                          RandomProjectionMelEmbedding_sample_rate F))) bs with
      | Ret loader =>
          (el <- sequence (map (forward (set_eval m)) loader) ;;
           e <- cat_dim0 el ;;
           e <- unflatten0 R F e ;;
           Ret (e, tensor_of_list (map (frame_stamp h) (seq 0 F))),
           Instance (set_eval m))
      | Raise e => (Raise e, Instance m)
      | OutOfFuel => (OutOfFuel, Instance m)
      end
    else (OutOfFuel, Instance m).
Proof.
  intros Hshape Hwf HF.
  unfold get_audio_embedding, ndim. rewrite Hshape. cbn [length Nat.eqb negb].
  rewrite get_audio_embedding_body_unfold.
  rewrite (frame_audio_2d tzero Hshape Hwf fuel HF).
  destruct (F <=? fuel); [|reflexivity].
  cbn [frames_tensor shape flatten01 bind data].
  destruct (data_loader _ bs) as [loader| |]; reflexivity.
Qed.

Lemma frame_count_of_hop (n Ns : nat) (h : Q) :
  (0 < h)%Q ->
  exists F, frame_count n h RandomProjectionMelEmbedding_sample_rate
                        (padded_length Ns n) F.
Proof.
  intros Hh. apply frame_count_exists. apply rate_sign_pos; [reflexivity|exact Hh].
Qed.

Lemma mul_broadcast_vector (row w : list T) :
  length w = length row ->
  mul_broadcast (mkTensor [length row] row) w
  = Ret (mkTensor [length row] (mul_rows row w)).
Proof.
  intros Hw. unfold mul_broadcast, split_last. cbn [shape rev app data].
  rewrite Hw, Nat.eqb_refl. cbn [numel fold_right chunks map concat app].
  now rewrite app_nil_r, firstn_all.
Qed.

Lemma rfft_vector (row : list T) :
  1 <= length row ->
  rfft (mkTensor [length row] row)
  = Ret (mkTensor [length row / 2 + 1] (rfft_row row)).
Proof.
  intros Hn. unfold rfft, split_last. cbn [shape rev app data].
  destruct (Nat.eqb_spec (length row) 0); [lia|].
  cbn [numel fold_right chunks map concat app].
  now rewrite app_nil_r, firstn_all.
Qed.

Lemma matmul_vector (row : list T) (w : matrix) :
  length row = nrows w ->
  matmul (mkTensor [length row] row) w
  = Ret (mkTensor [ncols w] (matmul_row w row)).
Proof.
  intros Hk. unfold matmul, split_last. cbn [shape rev app data].
  rewrite Hk, Nat.eqb_refl. cbn [numel fold_right chunks map concat app].
  now rewrite app_nil_r, <- Hk, firstn_all.
Qed.

(** [forward] on a single unbatched frame (a 1-D tensor). *)
Lemma forward_vector (m : @Model T) (row : list T) :
  valid_model m -> length row = n_fft m ->
  forward m (mkTensor [n_fft m] row)
  = Ret (mkTensor [embedding_size m] (forward_row m row)).
Proof.
  intros (Hn & Hw & Hmr & Hmc & Hmwf & Hpr & Hpc & Hpwf) Hrow.
  unfold forward. rewrite <- Hrow.
  rewrite mul_broadcast_vector by lia. cbn [bind].
  assert (H1 : length (mul_rows row (window m)) = length row)
    by (rewrite mul_rows_length; lia).
  rewrite <- H1 at 1. rewrite rfft_vector by lia. cbn [bind].
  unfold tensor_map. cbn [shape data].
  set (P := map pow2 (map cabs (rfft_row (mul_rows row (window m))))).
  assert (HP : length P = length (mul_rows row (window m)) / 2 + 1)
    by (unfold P; now rewrite !length_map, rfft_row_length).
  rewrite <- HP.
  rewrite matmul_vector by (cbn [transpose nrows]; rewrite HP, H1, Hrow, Hmc; reflexivity).
  cbn [bind shape data transpose ncols].
  set (L := map _ (matmul_row _ P)).
  assert (HL : length L = nrows (mel_scale m))
    by (unfold L; now rewrite length_map, matmul_row_length).
  rewrite <- HL. rewrite matmul_vector by lia.
  cbn [bind]. rewrite Hpc. reflexivity.
Qed.

Lemma list_sum_const {A} (c : nat) (l : list A) :
  list_sum (map (fun _ => c) l) = length l * c.
Proof. induction l as [|x l IH]; simpl; [reflexivity|]. now rewrite IH. Qed.

(** The state a call leaves behind. *)
Lemma get_audio_embedding_final_state (fuel : nat) (audio : tensor T)
    (model : pyobj) (h : Q) (bs : option Z) :
  snd (get_audio_embedding fuel audio model h bs) = model \/
  exists m, model = Instance m /\
    snd (get_audio_embedding fuel audio model h bs) = Instance (set_eval m).
Proof.
  unfold get_audio_embedding.
  destruct (negb (ndim audio =? 2)); [now left|].
  destruct model as [m|c]; [|now left].
  rewrite get_audio_embedding_body_unfold.
  destruct (frame_audio _ _ _ _ _ _) as [[frames ts]| |]; cbn [snd]; auto.
  destruct (shape frames) as [|ab [|nf [|fs [|]]]]; cbn [snd]; auto.
  destruct (_ <- flatten01 frames ;; _) as [loader| |]; cbn [snd]; auto.
  right. exists m. auto.
Qed.

(** A model in evaluation mode gives the same result as the model itself,
    and stays as it is. *)
Lemma get_audio_embedding_in_eval_mode (fuel : nat) (audio : tensor T)
    (m : @Model T) (h : Q) (bs : option Z) :
  get_audio_embedding fuel audio (Instance (set_eval m)) h bs
  = (fst (get_audio_embedding fuel audio (Instance m) h bs), Instance (set_eval m)).
Proof.
  unfold get_audio_embedding.
  destruct (negb (ndim audio =? 2)); [reflexivity|].
  rewrite !get_audio_embedding_body_unfold.
  change (n_fft (set_eval m)) with (n_fft m).
  change (set_eval (set_eval m)) with (set_eval m).
  destruct (frame_audio _ _ _ _ _ _) as [[frames ts]| |]; try reflexivity.
  destruct (shape frames) as [|ab [|nf [|fs [|]]]]; try reflexivity.
  destruct (_ <- flatten01 frames ;; _) as [loader| |]; reflexivity.
Qed.
End DriverEdges.

(** X5.  For a 2-D batch and a batch size that is not positive the driver
    raises the ValueError of the data loader, but only once framing has
    returned: with a positive hop enough fuel gives the error, with a hop
    that is not positive the call never returns; in either case the model
    is left as it was (evaluation mode is not yet set). *)
Theorem nonpositive_batch_size_rejected {T : Type} `{Scalar T}
    (audio : tensor T) (m : @Model T) (h : Q) (b : Z) (R Ns : nat) :
  shape audio = [R; Ns] -> wf audio -> (b <= 0)%Z ->
  ((0 < h)%Q ->
   exists fuel0, forall fuel, fuel0 <= fuel ->
     get_audio_embedding fuel audio (Instance m) h (Some b)
     = (Raise (ValueError "batch_size should be a positive integer value"),
        Instance m)) /\
  ((h <= 0)%Q ->
   forall fuel,
     get_audio_embedding fuel audio (Instance m) h (Some b) = (OutOfFuel, Instance m)) /\
  (forall fuel,
     snd (get_audio_embedding fuel audio (Instance m) h (Some b)) = Instance m).
Proof.
  intros Hshape Hwf Hb.
  assert (Hpos : (0 < h)%Q -> exists F, forall fuel,
             get_audio_embedding fuel audio (Instance m) h (Some b)
             = if F <=? fuel
               then (Raise (ValueError "batch_size should be a positive integer value"),
                     Instance m)
               else (OutOfFuel, Instance m)).
  { intros Hh. destruct (frame_count_of_hop (n_fft m) Ns Hh) as (F & HF).
    exists F. intros fuel.
    rewrite (get_audio_embedding_framed fuel m (Some b) Hshape Hwf HF).
    unfold data_loader. cbn [shape].
    destruct (Z.leb_spec b 0); [reflexivity|lia]. }
  assert (Hneg : (h <= 0)%Q -> forall fuel,
             get_audio_embedding fuel audio (Instance m) h (Some b)
             = (OutOfFuel, Instance m)).
  { intros Hh fuel. apply (get_audio_embedding_2d_diverges fuel audio m h _ Hshape).
    apply rate_sign_nonpos; [reflexivity|exact Hh]. }
  split; [|split].
  - intros Hh. destruct (Hpos Hh) as (F & HF). exists F. intros fuel Hfuel.
    rewrite HF. destruct (Nat.leb_spec F fuel); [reflexivity|lia].
  - exact Hneg.
  - intros fuel. destruct (Qlt_le_dec 0 h) as [Hh|Hh].
    + destruct (Hpos Hh) as (F & HF). rewrite HF. now destruct (F <=? fuel).
    + now rewrite Hneg.
Qed.

(** X6.  For a batch with no recording (shape (0, Ns)) and a positive hop,
    the driver fails in [torch.cat], on an empty list of embeddings, for a
    positive batch size as for [batch_size=None]; this failure comes after
    [model.eval()], so the model is left in evaluation mode. *)
Theorem empty_batch_fails_in_cat {T : Type} `{Scalar T}
    (audio : tensor T) (m : @Model T) (h : Q) (bs : option Z) (Ns : nat) :
  shape audio = [0; Ns] -> wf audio -> (0 < h)%Q ->
  (forall b, bs = Some b -> (0 < b)%Z) ->
  exists fuel0, forall fuel, fuel0 <= fuel ->
    get_audio_embedding fuel audio (Instance m) h bs
    = (Raise (RuntimeError "torch.cat(): expected a non-empty list of Tensors"),
       Instance (set_eval m)).
Proof.
  intros Hshape Hwf Hh Hbs.
  destruct (frame_count_of_hop (n_fft m) Ns Hh) as (F & HF).
  exists F. intros fuel Hfuel.
  rewrite (get_audio_embedding_framed fuel m bs Hshape Hwf HF).
  destruct (Nat.leb_spec F fuel); [|lia].
  unfold data_loader. cbn [shape Nat.mul chunks].
  destruct bs as [b|]; [|reflexivity].
  specialize (Hbs b eq_refl). destruct (Z.leb_spec b 0); [lia|]. reflexivity.
Qed.

(** X7.  With [batch_size=None] the loader yields the frames one by one,
    unbatched, and the embeddings are concatenated into one vector: for a
    valid model, a non-empty 2-D batch and a positive hop the final
    [unflatten] fails unless [embedding_size] is 1, in which case the result
    is a 2-D (R x F) tensor.  The model is left in evaluation mode. *)
Theorem unbatched_loader_breaks_unflatten {T : Type} `{Scalar T}
    (audio : tensor T) (m : @Model T) (h : Q) (R Ns : nat) :
  shape audio = [R; Ns] -> wf audio -> valid_model m -> 0 < R -> (0 < h)%Q ->
  exists fuel0 F d ts, forall fuel, fuel0 <= fuel ->
    get_audio_embedding fuel audio (Instance m) h None
    = (if embedding_size m =? 1
       then Ret (mkTensor [R; F] d, ts)
       else Raise (RuntimeError
                     "unflatten: Provided sizes don't multiply up to the size of dim 0"),
       Instance (set_eval m)).
Proof.
  intros Hshape Hwf Hvalid HR Hh.
  destruct (frame_count_of_hop (n_fft m) Ns Hh) as (F & HF).
  exists F, F. eexists. eexists. intros fuel Hfuel.
  rewrite (get_audio_embedding_framed fuel m None Hshape Hwf HF).
  destruct (Nat.leb_spec F fuel); [|lia].
  pose proof (frames_tensor_wf tzero Hshape Hwf HF) as Hfwf.
  unfold wf in Hfwf. cbn [frames_tensor shape data numel fold_right] in Hfwf.
  cbn [frames_tensor data]. set (d := concat _) in *.
  unfold data_loader. cbn [shape numel fold_right]. rewrite Nat.mul_1_r.
  set (samples := chunks (R * F) (n_fft m) d).
  assert (Hsamples : Forall (fun r => length r = n_fft m) samples)
    by (apply chunks_all_length; rewrite Hfwf; lia).
  assert (HM : length samples = R * F) by apply chunks_length.
  rewrite map_map.
  rewrite (sequence_map_ret _ (fun r => mkTensor [embedding_size m] (forward_row m r))).
  2:{ intros r Hr. rewrite Forall_forall in Hsamples.
      apply (@forward_vector _ _ (set_eval m) r Hvalid (Hsamples r Hr)). }
  cbn [bind].
  rewrite (cat_dim0_uniform (rest := [])).
  2:{ intros Hnil. apply map_eq_nil in Hnil.
      assert (0 < R * F) by (destruct HF; nia).
      change (samples = []) in Hnil. rewrite Hnil in HM. cbn [length] in HM. lia. }
  2:{ intros t Ht. apply in_map_iff in Ht. destruct Ht as (r & <- & _).
      eexists. reflexivity. }
  cbn [bind]. rewrite !map_map. cbn [shape hd data].
  rewrite list_sum_const, chunks_length. unfold unflatten0. cbn [shape data].
  assert (HF1 : 1 <= F) by apply HF.
  destruct (Nat.eqb_spec (embedding_size m) 1) as [He|He].
  - rewrite He, Nat.mul_1_r, Nat.eqb_refl. reflexivity.
  - destruct (Nat.eqb_spec (R * F) (R * F * embedding_size m)) as [Heq|Hne];
      [|reflexivity].
    exfalso. apply He. nia.
Qed.

(** X8.  Calling the driver again on the model a first call left behind
    gives the same result as calling it on the original model: the result
    does not depend on the training flag, and a model in evaluation mode is
    left as it is. *)
Theorem second_call_same_result {T : Type} `{Scalar T}
    (fuel1 fuel : nat) (audio1 audio : tensor T) (model : pyobj)
    (h1 h : Q) (bs1 bs : option Z) :
  let after := snd (get_audio_embedding fuel1 audio1 model h1 bs1) in
  fst (get_audio_embedding fuel audio after h bs)
  = fst (get_audio_embedding fuel audio model h bs) /\
  (forall m, after = Instance (set_eval m) ->
     snd (get_audio_embedding fuel audio after h bs) = after).
Proof.
  cbv zeta. split.
  - destruct (get_audio_embedding_final_state fuel1 audio1 model h1 bs1)
      as [->|(m & -> & ->)]; [reflexivity|].
    now rewrite get_audio_embedding_in_eval_mode.
  - intros m ->. now rewrite get_audio_embedding_in_eval_mode.
Qed.

(* ------------------------------------------------------------------ *)
(** ** More on the Framer *)



Lemma repeat_split {A} (x : A) (a b : nat) : repeat x a ++ repeat x b = repeat x (a + b).
Proof. now rewrite repeat_app. Qed.


(** X10.  With a positive sample rate, whenever [frame_audio] returns on a
    2-D batch the timestamps start at 0, each is the previous one plus the
    hop, and they are strictly increasing. *)
Theorem timestamps_step_by_hop {A} (zero : A) (audio : tensor A)
    (R Ns n : nat) (h : Q) (sr : Z) :
  shape audio = [R; Ns] -> wf audio -> (0 < sr)%Z ->
  forall fuel frames timestamps,
    frame_audio zero fuel audio n h sr = Ret (frames, timestamps) ->
    exists F,
      shape timestamps = [F] /\ length (data timestamps) = F /\ 1 <= F /\
      (nth 0 (data timestamps) 0 == 0)%Q /\
      forall k, S k < F ->
        (nth (S k) (data timestamps) 0 == nth k (data timestamps) 0 + h)%Q /\
        (nth k (data timestamps) 0 < nth (S k) (data timestamps) 0)%Q.
Proof.
  intros Hshape Hwf Hsr fuel frames timestamps Hret.
  destruct (frame_audio_2d_cases zero n h sr Hshape Hwf fuel)
    as [Hout|(F & HF & _ & Heq)]; [congruence|].
  rewrite Heq in Hret. injection Hret as <- <-.
  assert (HF1 : 1 <= F) by apply HF.
  destruct (frame_count_inrange Ns HF (k := 0) ltac:(lia)) as (Hsign & _).
  assert (Hh : (0 < Qnum h)%Z) by (unfold rate_sign in Hsign; nia).
  exists F. cbn [tensor_of_list shape data]. rewrite length_map, length_seq.
  split; [reflexivity|]. split; [reflexivity|]. split; [exact HF1|]. split.
  - rewrite nth_map_seq by lia. unfold frame_stamp, Qeq. cbn. lia.
  - intros k Hk. rewrite !nth_map_seq by lia. unfold frame_stamp.
    destruct h as [hn hd]. cbn [Qnum] in Hh.
    unfold Qeq, Qlt, Qplus, Qmult. cbn [Qnum Qden inject_Z].
    rewrite Nat2Z.inj_succ. split; nia.
Qed.


(** X12.  [frame_audio] does not get as far as its loop on a tensor of rank
    below 2: on a 1-D tensor reading [audio.shape[1]] raises IndexError, and
    a 0-D tensor is refused by the padding; no fuel is needed. *)
Theorem frame_audio_low_rank {A} (zero : A) (audio : tensor A)
    (fuel n : nat) (h : Q) (sr : Z) :
  (ndim audio = 1 ->
   frame_audio zero fuel audio n h sr = Raise (IndexError "tuple index out of range")) /\
  (ndim audio = 0 ->
   exists msg, frame_audio zero fuel audio n h sr = Raise (RuntimeError msg)).
Proof.
  unfold ndim, frame_audio, pad_last, split_last. split; intros Hnd.
  - destruct (shape audio) as [|d [|]]; try discriminate. reflexivity.
  - destruct (shape audio); [|discriminate]. eexists. reflexivity.
Qed.

(** X13.  Recordings without samples (shape (R, 0)) are framed into silence:
    whenever [frame_audio] returns, every frame is [n] zeros, the padding
    alone. *)
Theorem empty_recordings_give_silent_frames {A} (zero : A) (audio : tensor A)
    (R n : nat) (h : Q) (sr : Z) :
  shape audio = [R; 0] -> wf audio ->
  forall fuel frames timestamps,
    frame_audio zero fuel audio n h sr = Ret (frames, timestamps) ->
    exists F,
      shape frames = [R; F; n] /\ 1 <= F /\
      forall r k, r < R -> k < F -> at2 frames r k = repeat zero n.
Proof.
  intros Hshape Hwf fuel frames timestamps Hret.
  destruct (frame_audio_2d_cases zero n h sr Hshape Hwf fuel)
    as [Hout|(F & HF & _ & Heq)]; [congruence|].
  rewrite Heq in Hret. injection Hret as <- <-.
  exists F. split; [reflexivity|]. split; [apply HF|]. intros r k Hr Hk.
  destruct (frame_count_inrange 0 HF Hk) as (_ & Hlo & Hhi).
  rewrite padded_length_eq in Hhi.
  rewrite (at2_frames_tensor zero Hshape Hwf HF Hr Hk).
  replace (frame_start h sr k) with 0%Z by lia.
  unfold window_at, padded_recording, recording, row_at.
  cbn [Z.to_nat skipn firstn app]. rewrite repeat_split.
  pose proof (half_le n).
  replace (n / 2 + (n - n / 2)) with n by lia.
  apply firstn_all2. now rewrite repeat_length.
Qed.

(* ------------------------------------------------------------------ *)
(** ** Batches *)

Lemma groups_aux_sizes {A} (b fuel : nat) (l : list A) :
  1 <= b -> Forall (fun g => 1 <= length g <= b) (groups_aux fuel b l).
Proof.
  intros Hb. revert l; induction fuel as [|fuel IH]; intros l; [constructor|].
  destruct l as [|x l]; [constructor|].
  cbn [groups_aux]. constructor; [|apply IH].
  rewrite length_firstn. cbn [length]. lia.
Qed.

Lemma groups_aux_count {A} (b fuel : nat) (l : list A) :
  1 <= b -> length l <= fuel ->
  length (groups_aux fuel b l) = (length l + b - 1) / b.
Proof.
  intros Hb. revert l; induction fuel as [|fuel IH]; intros l Hl.
  - destruct l; [|cbn [length] in Hl; lia].
    cbn [groups_aux length]. symmetry. apply Nat.div_small. lia.
  - destruct l as [|x l].
    + cbn [groups_aux length]. symmetry. apply Nat.div_small. lia.
    + cbn [groups_aux]. cbn [length] in Hl. rewrite length_cons.
      rewrite IH by (rewrite length_skipn; cbn [length]; lia).
      rewrite length_skipn. set (len := length (x :: l)).
      assert (Hlen : 1 <= len) by (unfold len; cbn [length]; lia).
      destruct (Nat.le_gt_cases b len) as [Hge|Hlt].
      * replace (len + b - 1) with (len - b + b - 1 + 1 * b) by lia.
        rewrite Nat.div_add by lia. lia.
      * replace (len - b + b - 1) with (b - 1) by lia.
        rewrite Nat.div_small by lia.
        apply (Nat.div_unique _ _ 1 (len - 1)); lia.
Qed.

Lemma chunks_app {A} (N1 N2 n : nat) (d1 d2 : list A) :
  length d1 = N1 * n -> length d2 = N2 * n ->
  chunks (N1 + N2) n (d1 ++ d2) = chunks N1 n d1 ++ chunks N2 n d2.
Proof.
  intros H1 H2.
  rewrite <- (concat_chunks N1 n d1 H1) at 1.
  rewrite <- (concat_chunks N2 n d2 H2) at 1.
  rewrite <- concat_app. apply chunks_concat_exact.
  - now rewrite length_app, !chunks_length.
  - apply Forall_app. split; apply chunks_all_length; lia.
Qed.

(** X14.  The loader cuts an (M x n) frame tensor into
    [ceil(M / batch_size)] batches, each an (k x n) tensor with
    [1 <= k <= batch_size], which put end to end give back the frames in
    their order. *)
Theorem data_loader_batches {A} (M n : nat) (d : list A) (b : Z) :
  length d = M * n -> (0 < b)%Z ->
  exists batches,
    data_loader (mkTensor [M; n] d) (Some b) = Ret batches /\
    Forall (fun t => exists k, shape t = [k; n] /\ 1 <= k <= Z.to_nat b /\ wf t)
           batches /\
    concat (map (@data A) batches) = d /\
    length batches = (M + Z.to_nat b - 1) / Z.to_nat b.
Proof.
  intros Hd Hb. unfold data_loader. cbn [shape data numel fold_right].
  rewrite Nat.mul_1_r. destruct (Z.leb_spec b 0); [lia|].
  set (samples := chunks M n d).
  assert (Hsamples : Forall (fun r => length r = n) samples)
    by (apply chunks_all_length; lia).
  assert (Hb1 : 1 <= Z.to_nat b) by lia.
  eexists. split; [reflexivity|]. split; [|split].
  - apply Forall_map.
    pose proof (groups_aux_sizes (length samples) samples Hb1) as Hsizes.
    pose proof (groups_aux_Forall (Z.to_nat b) (length samples) Hsamples) as Hrows.
    fold (groups (Z.to_nat b) samples) in Hsizes, Hrows.
    rewrite Forall_forall in *. intros g Hg.
    exists (length g). split; [reflexivity|]. split; [now apply Hsizes|].
    unfold wf. cbn [shape data numel fold_right].
    rewrite (length_concat_rows (Hrows g Hg)). lia.
  - rewrite map_map. cbn [data].
    rewrite concat_concat_map, groups_concat by lia.
    now apply concat_chunks.
  - rewrite length_map. unfold groups.
    rewrite groups_aux_count by lia.
    unfold samples. now rewrite chunks_length.
Qed.

(** X15.  [forward] commutes with concatenation along the batch dimension:
    embedding two frame batches put together gives the two embedding
    batches put together. *)
Theorem forward_commutes_with_cat {T : Type} `{Scalar T}
    (m : @Model T) (N1 N2 : nat) (d1 d2 : list T) :
  valid_model m -> length d1 = N1 * n_fft m -> length d2 = N2 * n_fft m ->
  let x1 := mkTensor [N1; n_fft m] d1 in
  let x2 := mkTensor [N2; n_fft m] d2 in
  (x <- cat_dim0 [x1; x2] ;; forward m x)
  = (y1 <- forward m x1 ;; y2 <- forward m x2 ;; cat_dim0 [y1; y2]) /\
  exists e, (x <- cat_dim0 [x1; x2] ;; forward m x)
            = Ret (mkTensor [N1 + N2; embedding_size m] e) /\
            length e = (N1 + N2) * embedding_size m.
Proof.
  intros Hvalid H1 H2. cbv zeta.
  assert (Hcat : forall (A : Type) (k : nat) (a1 a2 : list A),
             cat_dim0 [mkTensor [N1; k] a1; mkTensor [N2; k] a2]
             = Ret (mkTensor [N1 + N2; k] (a1 ++ a2))).
  { intros A k a1 a2. unfold cat_dim0. cbn [shape forallb].
    rewrite shape_eqb_refl. cbn [andb map hd data concat].
    unfold list_sum. cbn [fold_right].
    now rewrite Nat.add_0_r, app_nil_r. }
  rewrite Hcat. cbn [bind].
  rewrite (forward_batch N1 d1 Hvalid H1), (forward_batch N2 d2 Hvalid H2).
  cbn [bind]. rewrite Hcat.
  assert (H12 : length (d1 ++ d2) = (N1 + N2) * n_fft m)
    by (rewrite length_app; lia).
  rewrite (forward_batch (N1 + N2) (d1 ++ d2) Hvalid H12).
  rewrite (@chunks_app _ N1 N2 (n_fft m) d1 d2 H1 H2), map_app, concat_app.
  split; [reflexivity|]. eexists. split; [reflexivity|].
  rewrite <- concat_app, <- map_app.
  rewrite (length_concat_rows (size := embedding_size m)).
  - now rewrite length_map, length_app, !chunks_length.
  - apply Forall_length_map. intros row _. rewrite forward_row_length. apply Hvalid.
Qed.

(* ------------------------------------------------------------------ *)
(** ** Instances of the further properties *)

Lemma example_externals_shapes : externals_shapes example_externals.
Proof.
  unfold externals_shapes, example_externals, wf_matrix.
  cbn [hann_window librosa_mel torch_rand nrows ncols entries].
  split; [|split].
  - intros n. now rewrite length_map, length_seq.
  - intros sr n_fft n_mels. now rewrite repeat_length.
  - intros seed rows cols. now rewrite repeat_length.
Qed.

Lemma example_rand_in_unit_interval (seed : Z) (rows cols : nat) :
  Forall (fun x => 0 <= x < 1)%R (entries (torch_rand example_externals seed rows cols)).
Proof.
  cbn [example_externals torch_rand entries].
  apply Forall_forall. intros x Hx. apply repeat_spec in Hx. subst x. lra.
Qed.

Lemma example_model_valid : valid_model example_model.
Proof. unfold valid_model, wf_matrix. cbn. repeat split; lia. Qed.


Lemma fresh_model_embeds_witness :
  externals_shapes example_externals /\
  shape example_audio = [2; 3] /\ wf example_audio /\ 0 < 2 /\
  (0 < 1 # 4)%Q /\ (0 < 512)%Z /\
  let m := RandomProjectionMelEmbedding_init example_externals in
  exists fuel0 F frames emb ts,
    1 <= F /\ shape emb = [2; F; timestamp_embedding_size m] /\ shape ts = [F] /\
    forall fuel, fuel0 <= fuel ->
      get_audio_embedding fuel example_audio (Instance m) (1 # 4) (Some 512%Z)
      = (Ret (emb, ts), Instance (set_eval m)) /\
      frame_audio tzero fuel example_audio (n_fft m) (1 # 4) (sample_rate m)
      = Ret (frames, ts).
Proof.
  split; [exact example_externals_shapes|].
  split; [reflexivity|]. split; [reflexivity|]. split; [lia|].
  split; [reflexivity|]. split; [reflexivity|].
  exact (@fresh_model_embeds R RealScalar RealScalarDiv example_externals
           example_audio 2 3 (1 # 4) 512%Z example_externals_shapes
           eq_refl eq_refl (le_S 1 1 (le_n 1)) eq_refl eq_refl).
Defined.

Lemma projection_entries_scaled_witness :
  externals_shapes example_externals /\
  (forall seed rows cols,
      Forall (fun x => 0 <= x < 1)%R
             (entries (torch_rand example_externals seed rows cols))) /\
  Forall (fun p => 0 <= p < 1 / 16)%R
         (entries (projection (RandomProjectionMelEmbedding_init example_externals))).
Proof.
  split; [exact example_externals_shapes|].
  split; [exact example_rand_in_unit_interval|].
  pose proof (projection_entries_scaled example_externals_shapes
                example_rand_in_unit_interval) as Hs.
  cbv zeta in Hs. exact (proj2 (proj2 (proj2 Hs))).
Defined.

Lemma fresh_model_silence_bounds_witness :
  externals_shapes example_externals /\
  (forall seed rows cols,
      Forall (fun x => 0 <= x < 1)%R
             (entries (torch_rand example_externals seed rows cols))) /\
  exists v,
    forward (RandomProjectionMelEmbedding_init example_externals)
            (mkTensor [1; 4096] (repeat 0%R 4096))
    = Ret (mkTensor [1; 4096] v) /\
    length v = 4096 /\
    Forall (fun x => 16 * ln (1 / 10000) <= x <= 0)%R v.
Proof.
  split; [exact example_externals_shapes|].
  split; [exact example_rand_in_unit_interval|].
  exact (fresh_model_silence_bounds example_externals_shapes
           example_rand_in_unit_interval).
Defined.

Lemma nonpositive_batch_size_rejected_witness :
  shape example_audio = [2; 3] /\ wf example_audio /\ (0 <= 0)%Z /\
  forall fuel,
    snd (get_audio_embedding fuel example_audio (Instance example_model)
                             (1 # 4) (Some 0%Z))
    = Instance example_model.
Proof.
  assert (Hb : (0 <= 0)%Z) by lia.
  split; [reflexivity|]. split; [reflexivity|]. split; [exact Hb|].
  exact (proj2 (proj2 (@nonpositive_batch_size_rejected R RealScalar example_audio
                          example_model (1 # 4) 0%Z 2 3 eq_refl eq_refl Hb))).
Defined.

Lemma empty_batch_fails_in_cat_witness :
  shape (@mkTensor R [0; 3] []) = [0; 3] /\ wf (@mkTensor R [0; 3] []) /\
  (0 < 1 # 4)%Q /\
  (forall b, @None Z = Some b -> (0 < b)%Z) /\
  exists fuel0, forall fuel, fuel0 <= fuel ->
    get_audio_embedding fuel (@mkTensor R [0; 3] []) (Instance example_model)
                        (1 # 4) None
    = (Raise (RuntimeError "torch.cat(): expected a non-empty list of Tensors"),
       Instance (set_eval example_model)).
Proof.
  assert (Hbs : forall b, @None Z = Some b -> (0 < b)%Z) by discriminate.
  split; [reflexivity|]. split; [reflexivity|]. split; [reflexivity|].
  split; [exact Hbs|].
  exact (@empty_batch_fails_in_cat R RealScalar (mkTensor [0; 3] []) example_model
           (1 # 4) None 3 eq_refl eq_refl eq_refl Hbs).
Defined.

Lemma unbatched_loader_breaks_unflatten_witness :
  shape example_audio = [2; 3] /\ wf example_audio /\ valid_model example_model /\
  0 < 2 /\ (0 < 1 # 4)%Q /\
  exists fuel0 F d ts, forall fuel, fuel0 <= fuel ->
    get_audio_embedding fuel example_audio (Instance example_model) (1 # 4) None
    = (if embedding_size example_model =? 1
       then Ret (mkTensor [2; F] d, ts)
       else Raise (RuntimeError
                     "unflatten: Provided sizes don't multiply up to the size of dim 0"),
       Instance (set_eval example_model)).
Proof.
  split; [reflexivity|]. split; [reflexivity|]. split; [exact example_model_valid|].
  split; [lia|]. split; [reflexivity|].
  exact (@unbatched_loader_breaks_unflatten R RealScalar example_audio example_model
           (1 # 4) 2 3 eq_refl eq_refl example_model_valid
           (le_S 1 1 (le_n 1)) eq_refl).
Defined.


Lemma timestamps_step_by_hop_witness :
  shape example_audio = [2; 3] /\ wf example_audio /\ (0 < 44100)%Z /\
  forall fuel frames timestamps,
    frame_audio 0%R fuel example_audio 4 (1 # 44100) 44100 = Ret (frames, timestamps) ->
    exists F,
      shape timestamps = [F] /\ length (data timestamps) = F /\ 1 <= F /\
      (nth 0 (data timestamps) 0 == 0)%Q /\
      forall k, S k < F ->
        (nth (S k) (data timestamps) 0 == nth k (data timestamps) 0 + (1 # 44100))%Q /\
        (nth k (data timestamps) 0 < nth (S k) (data timestamps) 0)%Q.
Proof.
  split; [reflexivity|]. split; [reflexivity|]. split; [reflexivity|].
  exact (@timestamps_step_by_hop R 0%R example_audio 2 3 4 (1 # 44100) 44100
           eq_refl eq_refl eq_refl).
Defined.


Lemma empty_recordings_give_silent_frames_witness :
  shape (@mkTensor R [2; 0] []) = [2; 0] /\ wf (@mkTensor R [2; 0] []) /\
  forall fuel frames timestamps,
    frame_audio 0%R fuel (mkTensor [2; 0] []) 4 (1 # 4) 44100 = Ret (frames, timestamps) ->
    exists F,
      shape frames = [2; F; 4] /\ 1 <= F /\
      forall r k, r < 2 -> k < F -> at2 frames r k = repeat 0%R 4.
Proof.
  split; [reflexivity|]. split; [reflexivity|].
  exact (@empty_recordings_give_silent_frames R 0%R (mkTensor [2; 0] []) 2 4
           (1 # 4) 44100 eq_refl eq_refl).
Defined.

Lemma data_loader_batches_witness :
  length (data example_audio) = 2 * 3 /\ (0 < 4)%Z /\
  exists batches,
    data_loader (mkTensor [2; 3] (data example_audio)) (Some 4%Z) = Ret batches /\
    Forall (fun t => exists k, shape t = [k; 3] /\ 1 <= k <= Z.to_nat 4 /\ wf t)
           batches /\
    concat (map (@data R) batches) = data example_audio /\
    length batches = (2 + Z.to_nat 4 - 1) / Z.to_nat 4.
Proof.
  split; [reflexivity|]. split; [reflexivity|].
  exact (@data_loader_batches R 2 3 (data example_audio) 4%Z eq_refl eq_refl).
Defined.

Lemma forward_commutes_with_cat_witness :
  valid_model example_model /\
  length [0; 0; 1 / 2; -1 / 2]%R = 1 * n_fft example_model /\
  length [0; 1 / 2; -1 / 2; 0; 1; 0; -1; 0]%R = 2 * n_fft example_model /\
  (x <- cat_dim0 [mkTensor [1; 4] [0; 0; 1 / 2; -1 / 2]%R;
                  mkTensor [2; 4] [0; 1 / 2; -1 / 2; 0; 1; 0; -1; 0]%R] ;;
   forward example_model x)
  = (y1 <- forward example_model (mkTensor [1; 4] [0; 0; 1 / 2; -1 / 2]%R) ;;
     y2 <- forward example_model
             (mkTensor [2; 4] [0; 1 / 2; -1 / 2; 0; 1; 0; -1; 0]%R) ;;
     cat_dim0 [y1; y2]).
Proof.
  split; [exact example_model_valid|]. split; [reflexivity|]. split; [reflexivity|].
  exact (proj1 (@forward_commutes_with_cat R RealScalar example_model 1 2
                  [0; 0; 1 / 2; -1 / 2]%R [0; 1 / 2; -1 / 2; 0; 1; 0; -1; 0]%R
                  example_model_valid eq_refl eq_refl)).
Defined.
